(** * nasagamma.peaksearch: kernel-convolution peak search

    A shallow embedding of [src/nasagamma/peaksearch.py] (the numeric core:
    [gaussian], [gaussian_derivative] and the class [PeakSearch]; of its
    plotting methods [plot_kernel] is embedded as the image and the colour
    scale that it hands to matplotlib, [plot_peaks] and [plot_components]
    only draw and are left out) together with the properties stated about
    it.

    The Python code computes on numpy arrays of IEEE binary64 numbers.  The
    embedding is written once, over an interface [NumOps] of the arithmetic
    the code uses, and read at two instances:

    - [F64 exp]: the primitive binary64 floats of Rocq, where every
      operation rounds, overflows and produces NaN as numpy's does.  The
      exponential is not an IEEE operation (numpy takes it from the C
      library), so this instance takes it as a parameter;
    - [Rops]: the real numbers, for the statements that are made "in exact
      arithmetic" or "within floating-point tolerance".

    Arrays are lists, 2-D arrays are lists of rows (C order, as numpy), and
    a Python exception is the [Raise] branch of [result].  Channel numbers
    and counts are held in the number type of the instance (numpy converts
    them when they meet a float; the integers of a spectrum are exact in
    binary64).  [scipy.signal.find_peaks], which [calculate] calls, is
    library code; it is rendered here from scipy's sources.

    Over the reals [sqrt] and [/] are total ([sqrt] of a negative number and
    the quotient by 0 are 0), so the real instance says nothing about the
    places where binary64 would produce NaN or an infinity; those are
    treated at the binary64 instance.  A statement over the reals that goes
    through such a place carries the hypothesis that keeps away from it:
    a width [sigma] other than zero for [gaussian], and for the kernel
    matrix a negative lobe in the columns concerned (the column sum of
    [kern_neg], by which [kernel_matrix] divides, is not zero). *)

From Stdlib Require Import String ZArith Bool Floats Reals Lra Lia List.
Import ListNotations.

Set Implicit Arguments.

(** ** Exceptions *)

Inductive pyexc : Type :=
| Exception (msg : string)   (* raise Exception(msg) *)
| IndexError                 (* a[-1] on an empty array *)
| ValueError.                (* numpy: negative dimension, shapes not aligned *)

Inductive result (A : Type) : Type :=
| Ok (a : A)
| Raise (e : pyexc).

Arguments Ok {A} a.
Arguments Raise {A} e.

Definition bind {A B : Type} (r : result A) (k : A -> result B) : result B :=
  match r with
  | Ok a => k a
  | Raise e => Raise e
  end.

Declare Scope py_scope.
Delimit Scope py_scope with py.
Notation "x <- r ;; k" := (bind r (fun x => k))
  (at level 61, r at next level, right associativity) : py_scope.

(** ** The arithmetic of the arrays *)

Class NumOps (T : Type) : Type := {
  of_Z : Z -> T;              (* an int used where a float is expected *)
  lit_2_355 : T;              (* the literal 2.355 *)
  fadd : T -> T -> T;
  fsub : T -> T -> T;
  fmul : T -> T -> T;
  fdiv : T -> T -> T;
  fneg : T -> T;
  fsqrt : T -> T;             (* np.sqrt *)
  fexp : T -> T;              (* np.exp *)
  fltb : T -> T -> bool;      (* <  *)
  fleb : T -> T -> bool;      (* <= *)
  feqb : T -> T -> bool;      (* == *)
  fisnan : T -> bool          (* np.isnan *)
}.

Declare Scope num_scope.
Delimit Scope num_scope with num.
Notation "x + y" := (fadd x y) : num_scope.
Notation "x - y" := (fsub x y) : num_scope.
Notation "x * y" := (fmul x y) : num_scope.
Notation "x / y" := (fdiv x y) : num_scope.
Notation "- x" := (fneg x) : num_scope.

(** ** List helpers standing for numpy's array operations *)

Section Arrays.
Context {A B C : Type}.

(** Elementwise binary operation on two arrays of the same shape. *)
Fixpoint zip_with (f : A -> B -> C) (xs : list A) (ys : list B) : list C :=
  match xs, ys with
  | x :: xs', y :: ys' => f x y :: zip_with f xs' ys'
  | _, _ => []
  end.

(** [a[i] = v] for [i] in range. *)
Fixpoint set_nth (i : nat) (v : A) (l : list A) : list A :=
  match l, i with
  | [], _ => []
  | _ :: l', O => v :: l'
  | x :: l', S i' => x :: set_nth i' v l'
  end.

(** [enumerate(l)], counting from [i]. *)
Fixpoint enumerate_from (i : nat) (l : list A) : list (nat * A) :=
  match l with
  | [] => []
  | x :: l' => (i, x) :: enumerate_from (S i) l'
  end.
End Arrays.

Definition enumerate {A : Type} (l : list A) : list (nat * A) := enumerate_from 0 l.

(** [a[:-1]] is [removelast a] and [a[1:]] is [tl a]. *)

(** [m[:, i] = col] on a list of rows. *)
Definition set_col {A : Type} (m : list (list A)) (i : nat) (col : list A) : list (list A) :=
  zip_with (fun row v => set_nth i v row) m col.

(** ** Python objects and classes

    The object a [PeakSearch] is built from may be any Python object; only
    its class and, for a Spectrum, the attributes the code reads matter. *)

Inductive pyclass : Type :=
| ClsSpectrum                                 (* sp.Spectrum *)
| ClsDerived (name : string) (base : pyclass) (* class name(base): ... *)
| ClsOther (name : string).                   (* a class unrelated to Spectrum *)

(** [issubclass(c, sp.Spectrum)] *)
Fixpoint issubclass_Spectrum (c : pyclass) : bool :=
  match c with
  | ClsSpectrum => true
  | ClsDerived _ b => issubclass_Spectrum b
  | ClsOther _ => false
  end.

(** [c == d] on classes: identity of the class objects. *)
Fixpoint pyclass_eqb (c d : pyclass) : bool :=
  match c, d with
  | ClsSpectrum, ClsSpectrum => true
  | ClsDerived n b, ClsDerived n' b' => String.eqb n n' && pyclass_eqb b b'
  | ClsOther n, ClsOther n' => String.eqb n n'
  | _, _ => false
  end.

(** ** The numeric core *)

Section Core.
Context {T : Type} {ops : NumOps T}.
Local Open Scope num_scope.

Definition zero : T := of_Z 0.

(** [np.zeros((r, c))] *)
Definition np_zeros2 (r c : nat) : list (list T) := repeat (repeat zero c) r.

(** [a.clip(lo, hi)] with both bounds given: numpy's clip loop computes
    [min(max(x, lo), hi)] and hands a NaN through.  A bound of [-np.inf] or
    [np.inf] is written [None]: it leaves every value, NaN included, as
    it is. *)
Definition np_clip (lo hi : option T) (x : T) : T :=
  if fisnan x then x
  else
    let y := match lo with
             | Some l => if fltb l x then x else l
             | None => x
             end in
    match hi with
    | Some h => if fltb y h then y else h
    | None => y
    end.

(** [a.clip(lo)], upper bound absent: numpy calls [np.maximum(a, lo)]. *)
Definition np_maximum (x lo : T) : T :=
  if fleb lo x || fisnan x then x else lo.

(** [a.sum(axis=0)] of a 2-D array with [c] columns: the rows are added up
    one after the other, starting from the first one. *)
Definition sum_axis0 (c : nat) (m : list (list T)) : list T :=
  match m with
  | [] => repeat zero c
  | r :: rs => fold_left (zip_with fadd) rs r
  end.

(** One entry of [np.dot(m, v)]: a row times the vector. *)
Definition dot_row (row v : list T) : T :=
  fold_left fadd (zip_with fmul row v) zero.

(** [np.dot(m, v)] for [m] of shape [(n, n)]: the shapes must be aligned. *)
Definition np_dot (n : nat) (m : list (list T)) (v : list T) : result (list T) :=
  if Nat.eqb n (length v) then Ok (map (fun row => dot_row row v) m)
  else Raise ValueError.

(** *** Module-level functions *)

(** [gaussian(x, mean, sigma)], one element of the array [x]. *)
Definition gaussian1 (x mean sigma : T) : T :=
  let z := (x - mean) / sigma in
  fexp (- (z * z) / of_Z 2).

Definition gaussian (x : list T) (mean sigma : T) : list T :=
  map (fun xi => gaussian1 xi mean sigma) x.

(** [gaussian_derivative(x, mean, sigma)], one element of the array [x]. *)
Definition gaussian_derivative1 (x mean sigma : T) : T :=
  let z := x - mean in
  of_Z (-1) * z * gaussian1 x mean sigma.

Definition gaussian_derivative (x : list T) (mean sigma : T) : list T :=
  map (fun xi => gaussian_derivative1 xi mean sigma) x.

(** *** class PeakSearch *)

Record pyobject : Type := {
  ob_type : pyclass;           (* type(obj) *)
  counts : list T;             (* obj.counts *)
  channels : list T;           (* obj.channels *)
  energies : option (list T);  (* obj.energies *)
  x_units : string             (* obj.x_units *)
}.

Record PeakSearch : Type := {
  ref_x : T;
  ref_fwhm : T;
  fwhm_at_0 : T;
  spectrum : pyobject;
  min_snr : T;
  snr : list T;
  peak_plus_bkg : list T;
  bkg : list T;
  signal : list T;
  noise : list T;
  peaks_idx : list nat;
  fwhm_guess : list T
}.

Section Methods.
Variable self : PeakSearch.

(** [PeakSearch.fwhm] *)
Definition fwhm (x : T) : T :=
  let f0 := fwhm_at_0 self in
  let f1 := ref_fwhm self in
  let x1 := ref_x self in
  (f1 / fsqrt x1) * fsqrt x + f0.

(** [PeakSearch.kernel] *)
Definition kernel (x : T) (edges : list T) : list T :=
  let fwhm1 := fwhm x in
  let sigma := fwhm1 / lit_2_355 in
  let g1_x0 := gaussian_derivative (removelast edges) x sigma in
  let g1_x1 := gaussian_derivative (tl edges) x sigma in
  zip_with fsub g1_x0 g1_x1.

(** The loop of [kernel_matrix]: column [i] receives the kernel centred
    at [edges[i]]. *)
Definition kern_raw (edges : list T) : list (list T) :=
  let n_channels := (length edges - 1)%nat in
  fold_left (fun kern ix => set_col kern (fst ix) (kernel (snd ix) edges))
            (enumerate (removelast edges))
            (np_zeros2 n_channels n_channels).

Definition clip_pos (m : list (list T)) : list (list T) :=
  map (map (fun v => of_Z 1 * np_clip (Some zero) None v)) m.

Definition clip_neg (m : list (list T)) : list (list T) :=
  map (map (fun v => of_Z (-1) * np_clip None (Some zero) v)) m.

(** [kern_neg *= kern_pos.sum(axis=0) / kern_neg.sum(axis=0)] *)
Definition rescale_neg (n : nat) (kern_pos kern_neg : list (list T)) : list (list T) :=
  let ratio := zip_with fdiv (sum_axis0 n kern_pos) (sum_axis0 n kern_neg) in
  map (fun row => zip_with fmul row ratio) kern_neg.

(** [PeakSearch.kernel_matrix]; [np.zeros] refuses the negative dimension
    that an empty [edges] gives. *)
Definition kernel_matrix (edges : list T) : result (list (list T)) :=
  match edges with
  | [] => Raise ValueError
  | _ :: _ =>
      let n_channels := (length edges - 1)%nat in
      let kern := kern_raw edges in
      let kern_pos := clip_pos kern in
      let kern_neg := clip_neg kern in
      let kern_neg := rescale_neg n_channels kern_pos kern_neg in
      let kmat := zip_with (zip_with fsub) kern_pos kern_neg in
      Ok kmat
  end.

(** [snr = np.zeros_like(signal); snr[noise > 0] = signal[noise > 0] / noise[noise > 0]] *)
Definition snr_of (signal noise : list T) : list T :=
  zip_with (fun s n => if fltb zero n then s / n else zero) signal noise.

(** [PeakSearch.convolve]: returns
    [(peak_plus_bkg, bkg, signal, noise, snr)]. *)
Definition convolve (edges data : list T)
  : result (list T * list T * list T * list T * list T) :=
  (kern_mat <- kernel_matrix edges ;;
   let n := length kern_mat in
   let kern_mat_pos := clip_pos kern_mat in
   let kern_mat_neg := clip_neg kern_mat in
   peak_plus_bkg <- np_dot n kern_mat_pos data ;;
   bkg <- np_dot n kern_mat_neg data ;;
   signal <- np_dot n kern_mat data ;;
   noise <- np_dot n (map (map (fun v => v * v)) kern_mat) data ;;
   let noise := map fsqrt noise in
   let snr := snr_of signal noise in
   Ok (peak_plus_bkg, bkg, signal, noise, snr))%py.

(** *** scipy.signal.find_peaks

    Library code, rendered from scipy's own sources: [_local_maxima_1d]
    walks the samples, and on a rising edge looks ahead over a plateau;
    the plateau is a maximum when the sample after it is smaller, and its
    midpoint is reported.  The first and the last sample are never
    maxima. *)

(** [while i_ahead < i_max and x[i_ahead] == x[i]: i_ahead += 1] *)
Fixpoint look_ahead (fuel : nat) (x : list T) (i_max i i_ahead : nat) : nat :=
  match fuel with
  | O => i_ahead
  | S fuel' =>
      if Nat.ltb i_ahead i_max && feqb (nth i_ahead x zero) (nth i x zero)
      then look_ahead fuel' x i_max i (S i_ahead)
      else i_ahead
  end.

(** [while i < i_max: ...], returning the midpoints. *)
Fixpoint local_maxima_loop (fuel : nat) (x : list T) (i_max i : nat) : list nat :=
  match fuel with
  | O => []
  | S fuel' =>
      if Nat.ltb i i_max then
        if fltb (nth (i - 1) x zero) (nth i x zero) then
          let i_ahead := look_ahead (length x) x i_max i (S i) in
          if fltb (nth i_ahead x zero) (nth i x zero) then
            let left_edge := i in
            let right_edge := (i_ahead - 1)%nat in
            Nat.div (left_edge + right_edge) 2
              :: local_maxima_loop fuel' x i_max (S i_ahead)
          else local_maxima_loop fuel' x i_max (S i)
        else local_maxima_loop fuel' x i_max (S i)
      else []
  end.

Definition local_maxima_1d (x : list T) : list nat :=
  local_maxima_loop (length x) x (length x - 1) 1.

(** [find_peaks(x, height=h)[0]]: a scalar [height] is the minimal
    required height, and scipy keeps the peaks with [h <= x[peak]]. *)
Definition find_peaks (x : list T) (height : T) : list nat :=
  filter (fun p => fleb height (nth p x zero)) (local_maxima_1d x).

(** [PeakSearch.calculate]: the updated object, or the exception.  (The
    first assignment of the source, [snr = np.zeros(len(counts))], is
    overwritten before it is read.) *)
Definition calculate : result PeakSearch :=
  (let sp := spectrum self in
   last_channel <- match channels sp with
                   | [] => Raise IndexError
                   | _ :: _ => Ok (last (channels sp) zero)
                   end ;;
   let edg := channels sp ++ [last_channel + of_Z 1] in
   out <- convolve edg (counts sp) ;;
   let '(peak_plus_bkg', bkg', signal', noise', snr') := out in
   let clipped := map (fun v => np_maximum v zero) snr' in
   let peaks_idx' := find_peaks clipped (min_snr self) in
   Ok {| ref_x := ref_x self;
         ref_fwhm := ref_fwhm self;
         fwhm_at_0 := fwhm_at_0 self;
         spectrum := spectrum self;
         min_snr := min_snr self;
         snr := clipped;
         peak_plus_bkg := peak_plus_bkg';
         bkg := bkg';
         signal := signal';
         noise := noise';
         peaks_idx := peaks_idx';
         fwhm_guess := map (fun p => fwhm (of_Z (Z.of_nat p))) peaks_idx' |})%py.
End Methods.
End Core.

(** The attributes that [__init__] sets before it calls [calculate]. *)
Definition fresh {T : Type} (sp : @pyobject T) (ref_x0 ref_fwhm0 fwhm_at_00 min_snr0 : T)
  : @PeakSearch T :=
  {| ref_x := ref_x0;
     ref_fwhm := ref_fwhm0;
     fwhm_at_0 := fwhm_at_00;
     spectrum := sp;
     min_snr := min_snr0;
     snr := [];
     peak_plus_bkg := [];
     bkg := [];
     signal := [];
     noise := [];
     peaks_idx := [];
     fwhm_guess := [] |}.

(** [PeakSearch.__init__]: the constructed object, or the exception that
    aborts the construction.  The defaults of the signature are
    [fwhm_at_0=1.0] and [min_snr=2]. *)
Definition __init__ {T : Type} {ops : NumOps T}
    (spectrum0 : @pyobject T) (ref_x0 ref_fwhm0 fwhm_at_00 min_snr0 : T)
  : result (@PeakSearch T) :=
  if negb (pyclass_eqb (ob_type spectrum0) ClsSpectrum)
  then Raise (Exception "'spectrum' must be a Spectrum object")
  else calculate (fresh spectrum0 ref_x0 ref_fwhm0 fwhm_at_00 min_snr0).

(** A Spectrum object with the given counts on the given channels. *)
Definition Spectrum {T : Type} (cnts chans : list T) : @pyobject T :=
  {| ob_type := ClsSpectrum; counts := cnts; channels := chans;
     energies := None; x_units := "Channels" |}.

Definition default_fwhm_at_0 {T : Type} {ops : NumOps T} : T := of_Z 1.
Definition default_min_snr {T : Type} {ops : NumOps T} : T := of_Z 2.


(** ** Instance 1: IEEE binary64 *)

Module B64.
Local Open Scope float_scope.

(** A Python int used in float arithmetic (exact below 2^53). *)
Definition float_of_Z (z : Z) : float :=
  match z with
  | Z0 => 0
  | Zpos _ => PrimFloat.of_uint63 (Uint63.of_Z z)
  | Zneg _ => - PrimFloat.of_uint63 (Uint63.of_Z (Z.opp z))
  end.

(** binary64 arithmetic with the exponential [exp] of the C library. *)
Definition F64 (exp : float -> float) : NumOps float := {|
  of_Z := float_of_Z;
  lit_2_355 := 0x1.2d70a3d70a3d7p+1;
  fadd := PrimFloat.add;
  fsub := PrimFloat.sub;
  fmul := PrimFloat.mul;
  fdiv := PrimFloat.div;
  fneg := PrimFloat.opp;
  fsqrt := PrimFloat.sqrt;
  fexp := exp;
  fltb := PrimFloat.ltb;
  fleb := PrimFloat.leb;
  feqb := PrimFloat.eqb;
  fisnan := PrimFloat.is_nan
|}.

(** What the theorems below ask of the exponential: it never returns a
    negative number. *)
Definition exp_nonneg (exp : float -> float) : Prop :=
  forall y, (exp y <? 0) = false.

(** An executable exponential, to run the model: the argument is divided
    by 2^10, a Taylor polynomial is evaluated there, and the result is
    squared ten times.  It is accurate to about twelve digits.  The
    theorems are stated for every exponential, at most under [exp_nonneg];
    only the concrete runs use this one. *)
Fixpoint taylor (k : nat) (n : float) (r : float) : float :=
  match k with
  | O => 1
  | S k' => 1 + (r / n) * taylor k' (n + 1) r
  end.

Fixpoint square_n (k : nat) (y : float) : float :=
  match k with
  | O => y
  | S k' => square_n k' (y * y)
  end.

Definition exp_run (x : float) : float :=
  if PrimFloat.is_nan x then nan
  else if 710 <? x then infinity
  else if x <? -746 then 0
  else square_n 10 (taylor 16 1 (x / 1024)).

(** [x] is not below zero: a zero, a positive number, [+inf] or NaN. *)
Definition notneg (x : float) : Prop := (x <? 0) = false.

(** [x] is not above zero. *)
Definition notpos (x : float) : Prop := (0 <? x) = false.

(** [x] is a zero of either sign, or NaN. *)
Definition zero_or_nan (x : float) : Prop :=
  match Prim2SF x with
  | S754_zero _ | S754_nan => True
  | _ => False
  end.

(** The entry of [kernel_matrix] in a column that holds the single kernel
    value [k]: [kern_pos - kern_neg * (sum(kern_pos) / sum(kern_neg))]. *)
Definition lone_entry (exp : float -> float) (k : float) : float :=
  let kp := 1 * @np_clip _ (F64 exp) (Some 0) None k in
  let kn := -1 * @np_clip _ (F64 exp) None (Some 0) k in
  kp - kn * (kp / kn).
End B64.

(** ** Instance 2: real numbers *)

Module RR.
Local Open Scope R_scope.

Definition Rltb (x y : R) : bool := if Rlt_dec x y then true else false.
Definition Rleb (x y : R) : bool := if Rle_dec x y then true else false.
Definition Reqb (x y : R) : bool := if Req_dec_T x y then true else false.

Definition Rops : NumOps R := {|
  of_Z := IZR;
  lit_2_355 := 2.355;
  fadd := Rplus;
  fsub := Rminus;
  fmul := Rmult;
  fdiv := Rdiv;
  fneg := Ropp;
  fsqrt := sqrt;
  fexp := exp;
  fltb := Rltb;
  fleb := Rleb;
  feqb := Reqb;
  fisnan := fun _ => false
|}.

#[local] Existing Instance Rops.

(** The sum of an array, and column [i] of a 2-D array. *)
Definition Rsum (l : list R) : R := fold_right Rplus 0 l.

Definition col (i : nat) (m : list (list R)) : list R :=
  map (fun row => nth i row 0) m.



(** [+1 * v.clip(0, np.inf)] and [-1 * v.clip(-np.inf, 0)] on one entry. *)
Definition pos_part (v : R) : R := fmul (of_Z 1) (np_clip (Some zero) None v).

Definition neg_part (v : R) : R := fmul (of_Z (-1)) (np_clip None (Some zero) v).

(** Every row of the 2-D array has [n] entries. *)
Definition rows_of_length (n : nat) (m : list (list R)) : Prop :=
  Forall (fun row => length row = n) m.

(** A two-channel example: [ref_x = 1], [ref_fwhm = 1], [fwhm_at_0 = 2.355],
    so that the kernel centred at channel 0 has sigma 1. *)
Definition two_channels : @PeakSearch R :=
  fresh (Spectrum [3; 4] [0; 1]) 1 1 2.355 2.

(** A four-channel example with a spike of 4 counts on channel 2;
    [ref_x = 2], [ref_fwhm = 1.355] and [fwhm_at_0 = 1] make the kernel
    centred at channel 2 have sigma 1, and [min_snr = 2] is the default. *)
Definition spike : @PeakSearch R :=
  fresh (Spectrum [0; 0; 4; 0] [0; 1; 2; 3]) 2 1.355 1 2.
End RR.

(** ** [PeakSearch.plot_kernel]

    The method draws with matplotlib; what is modelled is the call of
    [plt.imshow] that it makes: the image, the two ends of the colour scale
    and the extent.  The labels, the colour bar and the title carry no
    data. *)

Section PlotKernel.
Context {T : Type} {ops : NumOps T}.

(** [np.minimum(a, b)], the step of [ndarray.min()]. *)
Definition np_minimum (a b : T) : T :=
  if fleb a b || fisnan a then a else b.

(** [m.min()] and [m.max()] of a 2-D array: numpy refuses an array that
    has no entry. *)
Definition np_min (m : list (list T)) : result T :=
  match concat m with
  | [] => Raise ValueError
  | v :: vs => Ok (fold_left np_minimum vs v)
  end.

Definition np_max (m : list (list T)) : result T :=
  match concat m with
  | [] => Raise ValueError
  | v :: vs => Ok (fold_left np_maximum vs v)
  end.

(** Python's [min(a, b)] and [max(a, b)]: the first argument, unless the
    second one is smaller (larger). *)
Definition py_min (a b : T) : T := if fltb b a then b else a.

Definition py_max (a b : T) : T := if fltb a b then b else a.

(** [m.T] for a matrix with [c] columns, and [m.T[::-1, :]]. *)
Definition transpose (c : nat) (m : list (list T)) : list (list T) :=
  map (fun i => map (fun row => nth i row zero) m) (seq 0 c).

Record imshow_call : Type := {
  image : list (list T);
  vmin : T;
  vmax : T;
  extent : nat * nat * nat * nat
}.

(** [PeakSearch.plot_kernel]: the call of [plt.imshow], or the exception. *)
Definition plot_kernel (self : @PeakSearch T) : result imshow_call :=
  (let sp := spectrum self in
   last_channel <- match channels sp with
                   | [] => Raise IndexError
                   | _ :: _ => Ok (last (channels sp) zero)
                   end ;;
   let edges := channels sp ++ [fadd last_channel (of_Z 1)] in
   let n_channels := (length edges - 1)%nat in
   kern_mat <- kernel_matrix self edges ;;
   kern_min <- np_min kern_mat ;;
   kern_max <- np_max kern_mat ;;
   let kern_min := py_min kern_min (fmul (of_Z (-1)) kern_max) in
   let kern_max := py_max kern_max (fmul (of_Z (-1)) kern_min) in
   Ok {| image := rev (transpose n_channels kern_mat);
         vmin := kern_min;
         vmax := kern_max;
         extent := (n_channels, 0%nat, 0%nat, n_channels) |})%py.
End PlotKernel.

(** ** Notions used to state the properties of the arrays *)

(** An [n] by [n] matrix. *)
Definition square {T : Type} (n : nat) (m : list (list T)) : Prop :=
  length m = n /\ Forall (fun row => length row = n) m.

Module Totals.
Local Open Scope R_scope.
#[local] Existing Instance RR.Rops.

(** The rows of a matrix added up, from a row of zeros. *)
Definition rows_total (n : nat) (m : list (list R)) : list R :=
  fold_right (zip_with Rplus) (repeat 0 n) m.

(** Three channels and a width that does not depend on the channel:
    [ref_fwhm = 0] and [fwhm_at_0 = 2.355] give sigma 1 everywhere. *)
Definition constant_width : @PeakSearch R :=
  fresh (Spectrum [1; 5; 2] [0; 1; 2]) 1 0 2.355 2.
End Totals.

Module Finite.
Local Open Scope float_scope.

(** Neither NaN nor an infinity. *)
Definition finiteb (x : float) : bool :=
  negb (PrimFloat.is_nan x || PrimFloat.is_infinity x).

(** One of the two zeros of binary64. *)
Definition is_zero (x : float) : Prop := exists s, Prim2SF x = S754_zero s.
End Finite.

(** ** Facts about binary64 arithmetic

    The primitive operations are specified by [SpecFloat]; the lemmas below
    read off the few facts about signs, zeros and NaN that the properties
    need.  None of them looks at how a result is rounded. *)

Module B64Facts.
Import B64.
Local Open Scope float_scope.

(** Rounding keeps the sign it is given. *)
Lemma binary_round_aux_cases (s : bool) (m e : Z) (l : location) :
  let r := binary_round_aux prec emax s m e l in
  r = S754_zero s \/ (exists m' e', r = S754_finite s m' e')
  \/ r = S754_infinity s \/ r = S754_nan.
Proof.
  unfold binary_round_aux.
  destruct (shr_fexp prec emax m e l) as [mrs' e'].
  destruct (shr_fexp prec emax _ e' loc_Exact) as [mrs'' e''].
  destruct (shr_m mrs'') as [|p|p]; auto.
  destruct (e'' <=? emax - prec)%Z; eauto.
Qed.

Lemma nan_of_spec (x : float) : Prim2SF x = S754_nan -> x = nan.
Proof.
  intros H. rewrite <- (SF2Prim_Prim2SF x), H. reflexivity.
Qed.

Lemma notneg_spec (x : float) :
  notneg x <->
  match Prim2SF x with
  | S754_zero _ | S754_nan => True
  | S754_infinity s | S754_finite s _ _ => s = false
  end.
Proof.
  unfold notneg. rewrite ltb_spec.
  change (Prim2SF 0) with (S754_zero false).
  destruct (Prim2SF x) as [s|s| |s m e]; cbn; try tauto;
    destruct s; cbn; split; congruence.
Qed.

Lemma notpos_spec (x : float) :
  notpos x <->
  match Prim2SF x with
  | S754_zero _ | S754_nan => True
  | S754_infinity s | S754_finite s _ _ => s = true
  end.
Proof.
  unfold notpos. rewrite ltb_spec.
  change (Prim2SF 0) with (S754_zero false).
  destruct (Prim2SF x) as [s|s| |s m e]; cbn; try tauto;
    destruct s; cbn; split; congruence.
Qed.

(** A square is never negative. *)
Lemma square_notneg (y : float) : notneg (y * y).
Proof.
  apply notneg_spec. rewrite mul_spec. unfold SF64mul.
  destruct (Prim2SF y) as [s|s| |s m e]; cbn [SFmul]; auto using xorb_nilpotent.
  rewrite xorb_nilpotent.
  destruct (binary_round_aux_cases false (Z.pos (m * m)) (e + e) loc_Exact)
    as [H | [(m' & e' & H) | [H | H]]]; cbv zeta in H; rewrite H; auto.
Qed.

(** Multiplying a non-negative number by -1 gives a non-positive one. *)
Lemma neg1_mul_notpos (g : float) : notneg g -> notpos (-1 * g).
Proof.
  intros Hg. apply notneg_spec in Hg. apply notpos_spec.
  rewrite mul_spec. unfold SF64mul.
  change (Prim2SF (-1)) with (S754_finite true 4503599627370496 (-52)).
  destruct (Prim2SF g) as [s|s| |s m e]; cbn [SFmul]; auto.
  - subst s. reflexivity.
  - subst s. cbn [xorb].
    match goal with
    | |- context [binary_round_aux ?p ?em ?s ?mm ?ee ?l] =>
        destruct (binary_round_aux_cases s mm ee l)
          as [H | [(m' & e' & H) | [H | H]]]; cbv zeta in H; rewrite H; auto
    end.
Qed.

Lemma negzero_mul (g : float) : zero_or_nan (-0 * g).
Proof.
  unfold zero_or_nan. rewrite mul_spec. unfold SF64mul.
  change (Prim2SF (-0)) with (S754_zero true).
  destruct (Prim2SF g); cbn; auto.
Qed.

Lemma zero_sub_notpos (a b : float) : zero_or_nan a -> notpos b -> notneg (a - b).
Proof.
  unfold zero_or_nan. intros Ha Hb. apply notpos_spec in Hb. apply notneg_spec.
  rewrite sub_spec. unfold SF64sub.
  destruct (Prim2SF a) as [sa|sa| |sa ma ea]; try contradiction; cbn [SFsub]; auto.
  destruct (Prim2SF b) as [sb|sb| |sb mb eb]; auto; try (subst sb; reflexivity).
  destruct sa, sb; auto.
Qed.
End B64Facts.

(** ** The one-channel spectrum: a kernel column without a negative lobe *)

Module DegenerateKernel.
Import B64 B64Facts.
Local Open Scope float_scope.

Lemma is_nan_true (x : float) : PrimFloat.is_nan x = true -> x = nan.
Proof.
  unfold PrimFloat.is_nan. rewrite eqb_spec. intros H. apply nan_of_spec.
  destruct (Prim2SF x) as [s|s| |s m e]; auto; cbn in H; try discriminate.
  - destruct s; discriminate.
  - unfold SFeqb, SFcompare in H.
    destruct s; rewrite Z.compare_refl, ?Pos.compare_cont_refl in H; discriminate.
Qed.

Lemma nan_mul (c : float) : nan * c = nan.
Proof. apply nan_of_spec. rewrite mul_spec. reflexivity. Qed.

(** With no negative entry in the column the rescale divides by a zero sum,
    and the only entry becomes NaN. *)
Lemma lone_entry_nan (exp : float -> float) (k : float) :
  notneg k -> lone_entry exp k = nan.
Proof.
  intros Hk. unfold lone_entry, np_clip. cbn [fisnan fltb fmul fsub fdiv F64].
  destruct (PrimFloat.is_nan k) eqn:Hn.
  - apply is_nan_true in Hn. subst k. reflexivity.
  - unfold notneg in Hk. rewrite Hk.
    change (-1 * 0) with (-0).
    destruct (0 <? k) eqn:Hpos; [|reflexivity].
    generalize (1 * k). intros kp.
    apply nan_of_spec.
    rewrite sub_spec, mul_spec, div_spec.
    change (Prim2SF (-0)) with (S754_zero true).
    destruct (Prim2SF kp) as [s|s| |s m e]; reflexivity.
Qed.

Section OneChannel.
Variable exp : float -> float.
Hypothesis exp_ok : exp_nonneg exp.
Variable self : @PeakSearch float.

(** The kernel centred at 0 over the edges [0, 1] has one value, and it is
    not negative. *)
Lemma kernel_one_channel :
  exists k, notneg k /\ @kernel _ (F64 exp) self 0 [0; 1] = [k].
Proof.
  eexists. split; [|reflexivity].
  unfold gaussian_derivative1.
  cbn [fmul fsub of_Z F64 float_of_Z].
  change (-1 * (0 - 0)) with (-0).
  change (PrimFloat.of_uint63 (Uint63.of_Z (- -1))) with 1.
  change (- (1) * (1 - 0)) with (-1).
  apply zero_sub_notpos.
  - apply negzero_mul.
  - apply neg1_mul_notpos. apply exp_ok.
Qed.

Lemma kernel_matrix_one_channel :
  @kernel_matrix _ (F64 exp) self [0; 1] = Ok [[nan]].
Proof.
  destruct kernel_one_channel as (k & Hk & Hker).
  unfold kernel_matrix, kern_raw.
  cbn [length Nat.sub removelast enumerate enumerate_from fold_left fst snd np_zeros2 repeat].
  rewrite Hker.
  cbn [set_col zip_with set_nth clip_pos clip_neg map rescale_neg sum_axis0 fold_left].
  change (Ok [[lone_entry exp k]] = Ok [[nan]]).
  now rewrite lone_entry_nan.
Qed.

Lemma clip_nan :
  @clip_pos _ (F64 exp) [[nan]] = [[nan]] /\
  @clip_neg _ (F64 exp) [[nan]] = [[nan]] /\
  map (map (fun v => @fmul _ (F64 exp) v v)) [[nan]] = [[nan]].
Proof. repeat split. Qed.

Lemma dot_nan (c : float) : @np_dot _ (F64 exp) 1 [[nan]] [c] = Ok [nan].
Proof.
  unfold np_dot, dot_row. cbn [length Nat.eqb map zip_with fold_left].
  cbn [fmul fadd F64]. rewrite nan_mul. reflexivity.
Qed.

Lemma convolve_one_channel (c : float) :
  @convolve _ (F64 exp) self [0; 1] [c] = Ok ([nan], [nan], [nan], [nan], [0]).
Proof.
  unfold convolve. rewrite kernel_matrix_one_channel.
  cbn [bind length].
  destruct clip_nan as (-> & -> & ->).
  rewrite dot_nan. reflexivity.
Qed.

End OneChannel.

(** Through [calculate]: the one-channel spectrum on channel 0. *)
Lemma calculate_one_channel (exp : float -> float) (c rx rf f0 ms : float) :
  exp_nonneg exp ->
  exists ps, @calculate _ (F64 exp) (fresh (Spectrum [c] [0]) rx rf f0 ms) = Ok ps /\
    peak_plus_bkg ps = [nan] /\ bkg ps = [nan] /\ signal ps = [nan] /\
    noise ps = [nan] /\ snr ps = [0] /\ peaks_idx ps = [].
Proof.
  intros Hexp. unfold calculate.
  cbn [spectrum fresh channels counts Spectrum bind last app].
  change (@fadd _ (F64 exp) 0 (of_Z 1)) with 1.
  rewrite (convolve_one_channel Hexp). cbn [bind].
  eexists. split; [reflexivity|]. cbn. repeat split.
Qed.

(** The executable exponential meets the assumption. *)
Lemma square_n_notneg (k : nat) : forall y, notneg y -> notneg (square_n k y).
Proof.
  induction k as [|k IH]; intros y Hy; cbn [square_n]; auto.
  apply IH, square_notneg.
Qed.

Lemma exp_run_nonneg : exp_nonneg exp_run.
Proof.
  intros y. unfold exp_run.
  destruct (PrimFloat.is_nan y); [reflexivity|].
  destruct (710 <? y); [reflexivity|].
  destruct (y <? -746); [reflexivity|].
  exact (square_n_notneg 9 (square_notneg (taylor 16 1 (y / 1024)))).
Qed.

(** The same happens in the last column of a two-channel spectrum: both
    entries of the kernel centred at channel 1 are positive. *)
Lemma two_channel_last_column_nan :
  exists kmat,
    @kernel_matrix _ (F64 exp_run) (fresh (Spectrum [3; 4] [0; 1]) 50 5 1 2) [0; 1; 2]
    = Ok kmat /\
    map (fun row => nth 1 row 0) kmat = [nan; nan].
Proof. eexists. split; [vm_compute; reflexivity|reflexivity]. Qed.

(** C2 (the code departs from the claim).  When a column of the kernel has
    no negative entry, the rescale of the negative lobe divides by a zero
    sum and nothing guards it.  On the edges [0, 1] of a one-channel
    spectrum this happens for every configuration and every exponential that
    returns no negative number: the kernel matrix is [[NaN]], and
    [convolve] hands NaN on into [peak_plus_bkg], [bkg], [signal] and
    [noise], whatever the count is. *)
Theorem kernel_rescale_zero_sum_gives_nan
    (exp : float -> float) (self : @PeakSearch float) :
  exp_nonneg exp ->
  @kernel_matrix _ (F64 exp) self [0; 1] = Ok [[nan]] /\
  forall c, @convolve _ (F64 exp) self [0; 1] [c]
            = Ok ([nan], [nan], [nan], [nan], [0]).
Proof.
  intros Hexp. split.
  - now apply kernel_matrix_one_channel.
  - intros c. now apply convolve_one_channel.
Qed.

Lemma kernel_rescale_zero_sum_gives_nan_witness :
  exp_nonneg exp_run /\
  @kernel_matrix _ (F64 exp_run) (fresh (Spectrum [5] [0]) 50 5 1 2) [0; 1]
  = Ok [[nan]] /\
  forall c, @convolve _ (F64 exp_run) (fresh (Spectrum [5] [0]) 50 5 1 2) [0; 1] [c]
            = Ok ([nan], [nan], [nan], [nan], [0]).
Proof.
  split.
  - exact exp_run_nonneg.
  - apply (kernel_rescale_zero_sum_gives_nan
             (fresh (Spectrum [5] [0]) 50 5 1 2) exp_run_nonneg).
Defined.

(** C8 (the code departs from the claim; same defect as C2).  On the
    one-channel edges [0, 1] with the all-zero counts [0], [convolve] returns
    NaN in [peak_plus_bkg], [bkg], [signal] and [noise]; only [snr] is zero.
    Constructing a [PeakSearch] on that spectrum stores the same arrays. *)
Theorem convolve_zero_counts_one_channel_nan
    (exp : float -> float) (rx rf f0 ms : float) :
  exp_nonneg exp ->
  @convolve _ (F64 exp) (fresh (Spectrum [0] [0]) rx rf f0 ms) [0; 1] [0]
  = Ok ([nan], [nan], [nan], [nan], [0]) /\
  exists ps, @__init__ _ (F64 exp) (Spectrum [0] [0]) rx rf f0 ms = Ok ps /\
    peak_plus_bkg ps = [nan] /\ bkg ps = [nan] /\ signal ps = [nan] /\
    noise ps = [nan] /\ snr ps = [0] /\ peaks_idx ps = [].
Proof.
  intros Hexp. split.
  - now apply convolve_one_channel.
  - unfold __init__. cbn [ob_type Spectrum pyclass_eqb negb].
    now apply calculate_one_channel.
Qed.

Lemma convolve_zero_counts_one_channel_nan_witness :
  exp_nonneg exp_run /\
  @convolve _ (F64 exp_run) (fresh (Spectrum [0] [0]) 50 5 1 2) [0; 1] [0]
  = Ok ([nan], [nan], [nan], [nan], [0]) /\
  exists ps, @__init__ _ (F64 exp_run) (Spectrum [0] [0]) 50 5 1 2 = Ok ps /\
    peak_plus_bkg ps = [nan] /\ bkg ps = [nan] /\ signal ps = [nan] /\
    noise ps = [nan] /\ snr ps = [0] /\ peaks_idx ps = [].
Proof.
  split.
  - exact exp_run_nonneg.
  - apply (@convolve_zero_counts_one_channel_nan exp_run 50 5 1 2 exp_run_nonneg).
Defined.

(** C9 (the code departs from the claim; same defect as C2).  Where a
    column of the kernel has no negative entry the kernel matrix holds NaN,
    and so do the arrays of [convolve]: [signal == peak_plus_bkg - bkg] is
    false there, as every comparison with NaN is.  This is so on the edges
    [0, 1] of a one-channel spectrum, for every configuration, every count
    and every exponential that returns no negative number, and on the
    two-channel spectrum with the counts 3 and 4 (whose second column has
    no negative entry). *)
Theorem convolve_signal_nan_without_negative_lobe
    (exp : float -> float) (self : @PeakSearch float) (c : float) :
  exp_nonneg exp ->
  (exists ppb bk sg ns sn,
     @convolve _ (F64 exp) self [0; 1] [c] = Ok (ppb, bk, sg, ns, sn) /\
     PrimFloat.is_nan (nth 0 sg 0) = true /\
     (nth 0 sg 0 =? nth 0 ppb 0 - nth 0 bk 0) = false) /\
  (exists ppb bk sg ns sn,
     @convolve _ (F64 exp_run) (fresh (Spectrum [3; 4] [0; 1]) 50 5 1 2) [0; 1; 2] [3; 4]
     = Ok (ppb, bk, sg, ns, sn) /\
     map PrimFloat.is_nan sg = [true; true] /\
     map (fun i => nth i sg 0 =? nth i ppb 0 - nth i bk 0) [0%nat; 1%nat]
     = [false; false]).
Proof.
  intros Hexp. split.
  - exists [nan], [nan], [nan], [nan], [0]. split; [|split; reflexivity].
    now apply convolve_one_channel.
  - do 5 eexists. split; [vm_compute; reflexivity|]. split; reflexivity.
Qed.

Lemma convolve_signal_nan_without_negative_lobe_witness :
  exp_nonneg exp_run /\
  exists ppb bk sg ns sn,
    @convolve _ (F64 exp_run) (fresh (Spectrum [5] [0]) 50 5 1 2) [0; 1] [5]
    = Ok (ppb, bk, sg, ns, sn) /\
    PrimFloat.is_nan (nth 0 sg 0) = true /\
    (nth 0 sg 0 =? nth 0 ppb 0 - nth 0 bk 0) = false.
Proof.
  split.
  - exact exp_run_nonneg.
  - exact (proj1 (@convolve_signal_nan_without_negative_lobe exp_run
                    (fresh (Spectrum [5] [0]) 50 5 1 2) 5 exp_run_nonneg)).
Defined.
End DegenerateKernel.

(** ** Shapes and entries of the arrays *)

Module ArrayFacts.
Section Lists.
Context {A B C : Type}.

Lemma zip_with_length (f : A -> B -> C) (xs : list A) (ys : list B) :
  length (zip_with f xs ys) = Nat.min (length xs) (length ys).
Proof.
  revert ys. induction xs as [|x xs IH]; intros [|y ys]; cbn; auto.
Qed.

Lemma zip_with_nth (f : A -> B -> C) (xs : list A) (ys : list B)
    (i : nat) (da : A) (db : B) (dc : C) :
  (i < length xs)%nat -> (i < length ys)%nat ->
  nth i (zip_with f xs ys) dc = f (nth i xs da) (nth i ys db).
Proof.
  revert ys i. induction xs as [|x xs IH]; intros [|y ys] [|i]; cbn; try lia; auto.
  intros Hx Hy. apply IH; lia.
Qed.

Lemma set_nth_length (i : nat) (v : A) (l : list A) :
  length (set_nth i v l) = length l.
Proof.
  revert i. induction l as [|x l IH]; intros [|i]; cbn; auto.
Qed.
End Lists.

Lemma zip_with_map_both {A B C D : Type} (f : A -> B) (g : A -> C) (h : B -> C -> D)
    (l : list A) :
  zip_with h (map f l) (map g l) = map (fun k => h (f k) (g k)) l.
Proof. induction l as [|x l IH]; cbn; [reflexivity|]. now rewrite IH. Qed.

Lemma Forall_zip_with {A B C : Type} (P : A -> Prop) (Q : B -> Prop) (S : C -> Prop)
    (f : A -> B -> C) (xs : list A) (ys : list B) :
  (forall a b, P a -> Q b -> S (f a b)) ->
  Forall P xs -> Forall Q ys -> Forall S (zip_with f xs ys).
Proof.
  intros Hf Hx. revert ys. induction Hx as [|x xs Hpx Hx IH]; intros ys Hy; [constructor|].
  destruct Hy as [|y ys Hqy Hy]; cbn; constructor; auto.
Qed.

Lemma set_col_length {A : Type} (m : list (list A)) (i : nat) (col : list A) :
  length col = length m -> length (set_col m i col) = length m.
Proof.
  intros H. unfold set_col. rewrite zip_with_length. lia.
Qed.

Lemma removelast_length {A : Type} (l : list A) :
  length (removelast l) = (length l - 1)%nat.
Proof.
  induction l as [|x [|y l] IH]; cbn in *; auto. rewrite IH. lia.
Qed.

Lemma tl_length {A : Type} (l : list A) : length (tl l) = (length l - 1)%nat.
Proof. destruct l; cbn; lia. Qed.

Section Shapes.
Context {T : Type} {ops : NumOps T}.
Variable self : @PeakSearch T.

Lemma kernel_length (x : T) (edges : list T) :
  length (kernel self x edges) = (length edges - 1)%nat.
Proof.
  unfold kernel, gaussian_derivative.
  rewrite zip_with_length, !length_map, removelast_length, tl_length. lia.
Qed.

Lemma kern_raw_length (edges : list T) :
  length (kern_raw self edges) = (length edges - 1)%nat.
Proof.
  unfold kern_raw, enumerate.
  set (n := (length edges - 1)%nat).
  assert (H0 : length (np_zeros2 n n) = n) by (unfold np_zeros2; apply repeat_length).
  revert H0. generalize (np_zeros2 n n). generalize 0%nat.
  induction (removelast edges) as [|x xs IH]; intros i m Hm; cbn; auto.
  apply IH. rewrite set_col_length; auto.
  rewrite kernel_length. fold n. lia.
Qed.

Lemma kernel_matrix_length (edges : list T) (kmat : list (list T)) :
  kernel_matrix self edges = Ok kmat -> length kmat = (length edges - 1)%nat.
Proof.
  unfold kernel_matrix. destruct edges as [|e es]; [discriminate|].
  intros H. injection H as <-.
  unfold rescale_neg, clip_pos, clip_neg.
  rewrite zip_with_length, !length_map, kern_raw_length. lia.
Qed.

Lemma kernel_matrix_returns (e : T) (es : list T) :
  exists kmat, kernel_matrix self (e :: es) = Ok kmat.
Proof. unfold kernel_matrix. eauto. Qed.

(** What [convolve] returns, when it returns. *)
Lemma convolve_inv (edges data : list T) out :
  convolve self edges data = Ok out ->
  exists kmat,
    kernel_matrix self edges = Ok kmat /\ length kmat = length data /\
    let sg := map (fun row => dot_row row data) kmat in
    let ns := map fsqrt (map (fun row => dot_row row data)
                             (map (map (fun v => fmul v v)) kmat)) in
    out = (map (fun row => dot_row row data) (clip_pos kmat),
           map (fun row => dot_row row data) (clip_neg kmat),
           sg, ns, snr_of sg ns).
Proof.
  unfold convolve. destruct (kernel_matrix self edges) as [kmat|e]; [|discriminate].
  cbn [bind]. unfold np_dot.
  destruct (Nat.eqb (length kmat) (length data)) eqn:Hn; [|discriminate].
  cbn [bind]. intros H. injection H as <-.
  exists kmat. apply Nat.eqb_eq in Hn. auto.
Qed.

(** [convolve] returns whenever there is one count per channel. *)
Lemma convolve_returns (edges data : list T) :
  length edges = S (length data) -> exists out, convolve self edges data = Ok out.
Proof.
  intros Hlen. destruct edges as [|e es]; [discriminate|].
  destruct (kernel_matrix_returns e es) as [kmat Hk].
  pose proof (kernel_matrix_length _ Hk) as Hl. cbn in Hl, Hlen.
  unfold convolve. rewrite Hk. cbn [bind]. unfold np_dot.
  replace (Nat.eqb (length kmat) (length data)) with true
    by (symmetry; apply Nat.eqb_eq; lia).
  cbn [bind]. eauto.
Qed.
End Shapes.
End ArrayFacts.

(** ** The signal-to-noise ratio *)

Module Snr.
Import B64 B64Facts ArrayFacts.
Local Open Scope float_scope.

(** A number that compares equal to zero is not above zero. *)
Lemma eqb_zero_not_pos (n : float) : (n =? 0) = true -> (0 <? n) = false.
Proof.
  rewrite eqb_spec, ltb_spec. change (Prim2SF 0) with (S754_zero false).
  destruct (Prim2SF n) as [s|s| |s m e]; cbn; auto; destruct s; auto.
Qed.

Section Convolve.
Variable exp : float -> float.
Variable self : @PeakSearch float.

Lemma snr_of_length (sg ns : list float) :
  length sg = length ns -> length (@snr_of _ (F64 exp) sg ns) = length sg.
Proof. intros H. unfold snr_of. rewrite zip_with_length. lia. Qed.

Lemma snr_of_nth (sg ns : list float) (i : nat) :
  (i < length sg)%nat -> (i < length ns)%nat ->
  nth i (@snr_of _ (F64 exp) sg ns) 0
  = if 0 <? nth i ns 0 then nth i sg 0 / nth i ns 0 else 0.
Proof.
  intros Hs Hn. unfold snr_of.
  now rewrite (zip_with_nth _ _ _ 0 0 0 Hs Hn).
Qed.
End Convolve.

(** C5.  [convolve] returns whenever there is one count per channel, and
    in what it returns [snr] has the length of [signal] and [noise]; at every
    index [snr] is [signal / noise] where [noise > 0], and exactly 0 where
    [noise == 0], so that no division by a zero noise is ever carried out. *)
Theorem convolve_snr_zero_noise_convention
    (exp : float -> float) (self : @PeakSearch float) (edges data : list float) :
  (length edges = S (length data) ->
   exists out, @convolve _ (F64 exp) self edges data = Ok out) /\
  forall ppb bk sg ns sn,
    @convolve _ (F64 exp) self edges data = Ok (ppb, bk, sg, ns, sn) ->
    length sn = length sg /\ length ns = length sg /\
    forall i, (i < length sn)%nat ->
      ((0 <? nth i ns 0) = true -> nth i sn 0 = nth i sg 0 / nth i ns 0) /\
      ((nth i ns 0 =? 0) = true -> nth i sn 0 = 0 /\ PrimFloat.is_nan (nth i sn 0) = false
                                   /\ PrimFloat.is_infinity (nth i sn 0) = false).
Proof.
  split; [apply convolve_returns|].
  intros ppb bk sg ns sn H.
  apply convolve_inv in H. destruct H as (kmat & _ & _ & H).
  cbv zeta in H. injection H as _ _ Hsg Hns Hsn.
  assert (Hlen : length sg = length ns) by (rewrite Hsg, Hns; now rewrite !length_map).
  rewrite Hsn, <- Hsg, <- Hns. clear Hsn Hsg Hns.
  rewrite snr_of_length by assumption.
  split; [reflexivity|]. split; [now symmetry|].
  intros i Hi. rewrite snr_of_nth by lia. split.
  - now intros ->.
  - intros Hz. rewrite (eqb_zero_not_pos Hz). repeat split.
Qed.

Lemma convolve_snr_zero_noise_convention_witness :
  exists ppb bk sg ns sn,
    @convolve _ (F64 exp_run) (fresh (Spectrum [0; 0; 4; 0] [0; 1; 2; 3]) 50 5 1 2)
              [0; 1; 2; 3; 4] [0; 0; 4; 0] = Ok (ppb, bk, sg, ns, sn) /\
    length sn = length sg /\ length ns = length sg /\
    forall i, (i < length sn)%nat ->
      ((0 <? nth i ns 0) = true -> nth i sn 0 = nth i sg 0 / nth i ns 0) /\
      ((nth i ns 0 =? 0) = true -> nth i sn 0 = 0 /\ PrimFloat.is_nan (nth i sn 0) = false
                                   /\ PrimFloat.is_infinity (nth i sn 0) = false).
Proof.
  destruct (@convolve_snr_zero_noise_convention exp_run
              (fresh (Spectrum [0; 0; 4; 0] [0; 1; 2; 3]) 50 5 1 2)
              [0; 1; 2; 3; 4] [0; 0; 4; 0]) as [Hret Hprop].
  destruct (Hret eq_refl) as [[[[[ppb bk] sg] ns] sn] H].
  exists ppb, bk, sg, ns, sn. split; [exact H|].
  exact (Hprop _ _ _ _ _ H).
Defined.
End Snr.

(** ** Construction and [calculate] *)

Module Construction.
Import ArrayFacts.

Lemma pyclass_eqb_Spectrum (c : pyclass) :
  pyclass_eqb c ClsSpectrum = true <-> c = ClsSpectrum.
Proof. destruct c; cbn; split; congruence. Qed.

Section Generic.
Context {T : Type} {ops : NumOps T}.

(** What [calculate] stores, when it returns. *)
Lemma calculate_inv (self ps : @PeakSearch T) :
  calculate self = Ok ps ->
  exists c cs ppb bk sg ns sn,
    channels (spectrum self) = c :: cs /\
    convolve self (channels (spectrum self)
                   ++ [fadd (last (channels (spectrum self)) zero) (of_Z 1)])
             (counts (spectrum self)) = Ok (ppb, bk, sg, ns, sn) /\
    peak_plus_bkg ps = ppb /\ bkg ps = bk /\ signal ps = sg /\ noise ps = ns /\
    snr ps = map (fun v => np_maximum v zero) sn /\
    peaks_idx ps = find_peaks (snr ps) (min_snr self) /\
    fwhm_guess ps = map (fun p => fwhm self (of_Z (Z.of_nat p))) (peaks_idx ps) /\
    min_snr ps = min_snr self /\ ref_x ps = ref_x self /\
    ref_fwhm ps = ref_fwhm self /\ fwhm_at_0 ps = fwhm_at_0 self /\
    spectrum ps = spectrum self.
Proof.
  unfold calculate.
  destruct (channels (spectrum self)) as [|c cs] eqn:Hch; [discriminate|].
  cbn [bind].
  destruct (convolve self _ _) as [[[[[ppb bk] sg] ns] sn]|e] eqn:Hc; [|discriminate].
  cbn [bind]. intros H. injection H as <-.
  exists c, cs, ppb, bk, sg, ns, sn. cbn. repeat split; auto.
Qed.

(** [calculate] returns on every spectrum with at least one channel and one
    count per channel. *)
Lemma calculate_returns (self : @PeakSearch T) :
  channels (spectrum self) <> [] ->
  length (counts (spectrum self)) = length (channels (spectrum self)) ->
  exists ps, calculate self = Ok ps.
Proof.
  intros Hne Hlen. unfold calculate.
  destruct (channels (spectrum self)) as [|c cs] eqn:Hch; [contradiction|].
  cbn [bind].
  destruct (convolve_returns self
              ((c :: cs) ++ [fadd (last (c :: cs) zero) (of_Z 1)])
              (counts (spectrum self))) as [[[[[ppb bk] sg] ns] sn] Hc].
  { rewrite length_app, Hlen. cbn. lia. }
  rewrite Hc. cbn [bind]. eauto.
Qed.

(** The five arrays that [convolve] returns have one entry per count. *)
Lemma convolve_lengths (self : @PeakSearch T) (edges data : list T) ppb bk sg ns sn :
  convolve self edges data = Ok (ppb, bk, sg, ns, sn) ->
  length ppb = length data /\ length bk = length data /\ length sg = length data /\
  length ns = length data /\ length sn = length data.
Proof.
  intros H. apply convolve_inv in H. destruct H as (kmat & _ & Hl & H).
  cbv zeta in H. injection H as -> -> -> -> ->.
  unfold snr_of, clip_pos, clip_neg.
  rewrite zip_with_length, !length_map. repeat split; lia.
Qed.
End Generic.
End Construction.

(** ** What the constructor checks, and what it does not *)

Module Validation.
Import B64 B64Facts ArrayFacts Construction.

Lemma init_calculate {T : Type} {ops : NumOps T}
    (obj : @pyobject T) (rx rf f0 ms : T) :
  ob_type obj = ClsSpectrum ->
  __init__ obj rx rf f0 ms = calculate (fresh obj rx rf f0 ms).
Proof. intros H. unfold __init__. rewrite H. reflexivity. Qed.

(** The constructor returns on every Spectrum with at least one channel and
    one count per channel, whatever the configuration. *)
Lemma init_returns {T : Type} {ops : NumOps T}
    (obj : @pyobject T) (rx rf f0 ms : T) :
  ob_type obj = ClsSpectrum ->
  channels obj <> [] ->
  length (counts obj) = length (channels obj) ->
  exists ps, __init__ obj rx rf f0 ms = Ok ps /\ ref_x ps = rx /\
    length (peak_plus_bkg ps) = length (counts obj) /\
    length (bkg ps) = length (counts obj) /\
    length (signal ps) = length (counts obj) /\
    length (noise ps) = length (counts obj) /\
    length (snr ps) = length (counts obj).
Proof.
  intros Hty Hne Hlen. rewrite (init_calculate _ _ _ _ _ Hty).
  match goal with |- context [calculate ?s] => set (self := s) end.
  destruct (calculate_returns self Hne Hlen) as [ps Hps].
  exists ps. split; [exact Hps|].
  destruct (calculate_inv _ Hps)
    as (c & cs & ppb & bk & sg & ns & sn & _ & Hc & -> & -> & -> & -> & -> & _ & _ & _ & -> & _).
  apply convolve_lengths in Hc. cbn [spectrum self fresh] in Hc.
  rewrite length_map. cbn [ref_x self fresh]. intuition.
Qed.

(** C1, as the code has it.  On a Spectrum without channels the constructor
    raises IndexError (from [channels[-1]]) and builds no object; on a
    Spectrum with at least one channel and one count per channel it returns,
    and each of the five arrays has one entry per channel. *)
Theorem init_empty_spectrum_raises {T : Type} {ops : NumOps T}
    (obj : @pyobject T) (rx rf f0 ms : T) :
  ob_type obj = ClsSpectrum ->
  (channels obj = [] -> __init__ obj rx rf f0 ms = Raise IndexError) /\
  (channels obj <> [] -> length (counts obj) = length (channels obj) ->
   exists ps, __init__ obj rx rf f0 ms = Ok ps /\
     length (peak_plus_bkg ps) = length (counts obj) /\
     length (bkg ps) = length (counts obj) /\
     length (signal ps) = length (counts obj) /\
     length (noise ps) = length (counts obj) /\
     length (snr ps) = length (counts obj)).
Proof.
  intros Hty. split.
  - intros Hch. rewrite (init_calculate _ _ _ _ _ Hty).
    unfold calculate. cbn [spectrum fresh]. rewrite Hch. reflexivity.
  - intros Hne Hlen.
    destruct (init_returns obj rx rf f0 ms Hty Hne Hlen) as (ps & H & _ & Hl).
    exists ps. auto.
Qed.

Local Open Scope float_scope.

Lemma init_empty_spectrum_raises_witness :
  @__init__ _ (F64 exp_run) (Spectrum [] []) 50 5 1 2 = Raise IndexError.
Proof.
  apply (@init_empty_spectrum_raises _ (F64 exp_run) (Spectrum [] []) 50 5 1 2); reflexivity.
Defined.

(** The claim C1 fails on the empty spectrum: no object and no output
    arrays, an IndexError instead. *)
Lemma empty_spectrum_crashes :
  @calculate _ (F64 exp_run) (fresh (Spectrum [] []) 50 5 1 2) = Raise IndexError
  /\ @__init__ _ (F64 exp_run) (Spectrum [] []) 50 5 1 2 = Raise IndexError.
Proof. split; reflexivity. Qed.

(** C7, as the code has it.  [ref_x] is not validated: with [ref_x <= 0] the
    constructor still returns an object on every Spectrum that has a channel
    and one count per channel, and the object keeps that [ref_x]. *)
Theorem init_accepts_nonpositive_ref_x
    (exp : float -> float) (obj : @pyobject float) (rx rf f0 ms : float) :
  (rx <=? 0) = true ->
  ob_type obj = ClsSpectrum ->
  channels obj <> [] ->
  length (counts obj) = length (channels obj) ->
  exists ps, @__init__ _ (F64 exp) obj rx rf f0 ms = Ok ps /\ ref_x ps = rx.
Proof.
  intros _ Hty Hne Hlen.
  destruct (@init_returns _ (F64 exp) obj rx rf f0 ms Hty Hne Hlen) as (ps & H & Hrx & _).
  eauto.
Qed.

Lemma init_accepts_nonpositive_ref_x_witness :
  exists ps, @__init__ _ (F64 exp_run) (Spectrum [0; 0; 4; 0] [0; 1; 2; 3]) (-1) 5 1 2
             = Ok ps /\ ref_x ps = -1.
Proof.
  apply (@init_accepts_nonpositive_ref_x exp_run
           (Spectrum [0; 0; 4; 0] [0; 1; 2; 3]) (-1) 5 1 2);
    [reflexivity | reflexivity | discriminate | reflexivity].
Defined.

(** The claim C7 fails at [ref_x = 0]: the object is built, and its arrays
    hold NaN. *)
Lemma zero_ref_x_constructs :
  @__init__ _ (F64 exp_run) (Spectrum [0; 0; 4; 0] [0; 1; 2; 3]) 0 5 1 2
  = Ok {| ref_x := 0; ref_fwhm := 5; fwhm_at_0 := 1;
          spectrum := Spectrum [0; 0; 4; 0] [0; 1; 2; 3]; min_snr := 2;
          snr := [0; 0; 0; 0];
          peak_plus_bkg := [nan; nan; nan; nan]; bkg := [nan; nan; nan; nan];
          signal := [nan; nan; nan; nan]; noise := [nan; nan; nan; nan];
          peaks_idx := []; fwhm_guess := [] |}.
Proof. vm_compute. reflexivity. Qed.

(** C10.  The constructor compares [type(spectrum)] with the class Spectrum
    itself: an object of any other class is refused with the exception of
    the source, and so is an instance of a class derived from Spectrum. *)
Theorem init_rejects_other_types {T : Type} {ops : NumOps T}
    (obj : @pyobject T) (rx rf f0 ms : T) :
  (ob_type obj <> ClsSpectrum ->
   __init__ obj rx rf f0 ms = Raise (Exception "'spectrum' must be a Spectrum object"))
  /\
  (forall name base,
     ob_type obj = ClsDerived name base -> issubclass_Spectrum base = true ->
     __init__ obj rx rf f0 ms = Raise (Exception "'spectrum' must be a Spectrum object")).
Proof.
  assert (Hr : ob_type obj <> ClsSpectrum ->
               __init__ obj rx rf f0 ms
               = Raise (Exception "'spectrum' must be a Spectrum object")).
  { intros Hty. unfold __init__.
    destruct (pyclass_eqb (ob_type obj) ClsSpectrum) eqn:He; [|reflexivity].
    apply pyclass_eqb_Spectrum in He. contradiction. }
  split; [exact Hr|].
  intros name base Hcls _. apply Hr. rewrite Hcls. discriminate.
Qed.

Lemma init_rejects_other_types_witness :
  issubclass_Spectrum (ClsDerived "CalibratedSpectrum" ClsSpectrum) = true /\
  @__init__ _ (F64 exp_run)
      {| ob_type := ClsDerived "CalibratedSpectrum" ClsSpectrum;
         counts := [0; 0; 4; 0]; channels := [0; 1; 2; 3];
         energies := None; x_units := "Channels" |} 50 5 1 2
  = Raise (Exception "'spectrum' must be a Spectrum object").
Proof.
  split; [reflexivity|].
  apply (proj2 (@init_rejects_other_types _ (F64 exp_run)
           {| ob_type := ClsDerived "CalibratedSpectrum" ClsSpectrum;
              counts := [0; 0; 4; 0]; channels := [0; 1; 2; 3];
              energies := None; x_units := "Channels" |} 50 5 1 2)
           "CalibratedSpectrum"%string ClsSpectrum); reflexivity.
Defined.
End Validation.

(** ** Peak extraction *)

Module Peaks.
Import B64 B64Facts ArrayFacts Construction.

Section Generic.
Context {T : Type} {ops : NumOps T}.

Lemma look_ahead_bounds (x : list T) (i_max i : nat) :
  forall fuel i_ahead, (i_ahead <= i_max)%nat ->
    (i_ahead <= look_ahead fuel x i_max i i_ahead <= i_max)%nat.
Proof.
  induction fuel as [|fuel IH]; intros ia Hia; cbn [look_ahead]; [lia|].
  destruct (Nat.ltb ia i_max) eqn:Hlt; cbn [andb]; [|lia].
  apply Nat.ltb_lt in Hlt.
  destruct (feqb _ _); [|lia].
  specialize (IH (S ia) Hlt). lia.
Qed.

(** Every index that [_local_maxima_1d] reports lies strictly between the
    first and the last sample. *)
Lemma local_maxima_loop_range (x : list T) (i_max : nat) :
  forall fuel i p, In p (local_maxima_loop fuel x i_max i) -> (i <= p < i_max)%nat.
Proof.
  induction fuel as [|fuel IH]; intros i p; cbn [local_maxima_loop]; [contradiction|].
  destruct (Nat.ltb i i_max) eqn:Hlt; [|contradiction].
  apply Nat.ltb_lt in Hlt.
  destruct (fltb (nth (i - 1) x zero) (nth i x zero)).
  - pose proof (look_ahead_bounds x i (length x) (i_ahead := S i) Hlt) as Hb.
    set (ia := look_ahead (length x) x i_max i (S i)) in *.
    destruct (fltb (nth ia x zero) (nth i x zero)).
    + intros [<- | Hin].
      * pose proof (Nat.div_mod_eq (i + (ia - 1)) 2) as Hd.
        pose proof (Nat.mod_upper_bound (i + (ia - 1)) 2) as Hm. lia.
      * apply IH in Hin. lia.
    + intros Hin. apply IH in Hin. lia.
  - intros Hin. apply IH in Hin. lia.
Qed.

Lemma find_peaks_spec (x : list T) (h : T) (p : nat) :
  In p (find_peaks x h) ->
  fleb h (nth p x zero) = true /\ (1 <= p < length x - 1)%nat.
Proof.
  unfold find_peaks, local_maxima_1d. rewrite filter_In. intros [Hin Hh].
  split; [exact Hh|]. now apply local_maxima_loop_range in Hin.
Qed.
End Generic.

Local Open Scope float_scope.

(** Clipping at zero leaves nothing below zero. *)
Lemma np_maximum_notneg (exp : float -> float) (v : float) :
  (@np_maximum _ (F64 exp) v 0 <? 0) = false.
Proof.
  unfold np_maximum. cbn [fleb fisnan F64].
  destruct (0 <=? v) eqn:Hle; cbn [orb].
  - revert Hle. rewrite leb_spec, ltb_spec.
    change (Prim2SF 0) with (S754_zero false).
    destruct (Prim2SF v) as [s|s| |s m e]; cbn; auto; destruct s; auto.
  - destruct (PrimFloat.is_nan v) eqn:Hn; [|reflexivity].
    rewrite ltb_spec. revert Hn. unfold PrimFloat.is_nan. rewrite eqb_spec.
    destruct (Prim2SF v) as [s|s| |s m e]; cbn; auto; try discriminate.
    + destruct s; discriminate.
    + unfold SFeqb, SFcompare.
      destruct s; rewrite Z.compare_refl, ?Pos.compare_cont_refl; discriminate.
Qed.

(** C6, as the code has it.  After [calculate] no stored [snr] is below
    zero, and every reported peak index lies inside the spectrum and has a
    clipped SNR of at least [min_snr]: scipy's height condition is
    [min_snr <= height], not a strict one. *)
Theorem calculate_snr_clipped_peaks_reach_min_snr
    (exp : float -> float) (self ps : @PeakSearch float) :
  @calculate _ (F64 exp) self = Ok ps ->
  (forall v, In v (snr ps) -> (v <? 0) = false) /\
  (forall p, In p (peaks_idx ps) ->
     (p < length (snr ps))%nat /\ (min_snr self <=? nth p (snr ps) 0) = true).
Proof.
  intros H.
  destruct (calculate_inv _ H)
    as (c & cs & ppb & bk & sg & ns & sn & _ & _ & _ & _ & _ & _ & Hsnr & Hpk & _).
  split.
  - intros v Hv. rewrite Hsnr in Hv. apply in_map_iff in Hv.
    destruct Hv as (w & <- & _). apply np_maximum_notneg.
  - intros p Hp. rewrite Hpk in Hp. apply find_peaks_spec in Hp.
    destruct Hp as [Hh Hr]. split; [lia|exact Hh].
Qed.

Lemma calculate_snr_clipped_peaks_reach_min_snr_witness :
  exists ps,
    @calculate _ (F64 exp_run) (fresh (Spectrum [0; 0; 4; 0] [0; 1; 2; 3])
                                      2 0x1.5ae147ae147aep+0 1 2) = Ok ps /\
    (forall v, In v (snr ps) -> (v <? 0) = false) /\
    (forall p, In p (peaks_idx ps) ->
       (p < length (snr ps))%nat /\ (2 <=? nth p (snr ps) 0) = true).
Proof.
  eexists. split; [vm_compute; reflexivity|].
  apply (@calculate_snr_clipped_peaks_reach_min_snr exp_run
           (fresh (Spectrum [0; 0; 4; 0] [0; 1; 2; 3]) 2 0x1.5ae147ae147aep+0 1 2)).
  vm_compute. reflexivity.
Defined.

(** With the counts [0, 0, 4, 0] and the default [min_snr = 2] the clipped
    SNR is [0, 2, 2, 0]: index 1 (the middle of the plateau) is reported, and
    its SNR is 2, which is not above [min_snr]. *)
Lemma peak_at_threshold_binary64 :
  exists ps,
    @__init__ _ (F64 exp_run) (Spectrum [0; 0; 4; 0] [0; 1; 2; 3])
              2 0x1.5ae147ae147aep+0 1 2 = Ok ps /\
    snr ps = [0; 2; 2; 0] /\ peaks_idx ps = [1%nat] /\ min_snr ps = 2 /\
    (min_snr ps <? nth 1 (snr ps) 0) = false.
Proof. eexists. split; [vm_compute; reflexivity|]. repeat split. Qed.
End Peaks.

(** ** The FWHM model on binary64 *)

Module Fwhm64.
Import B64 B64Facts.
Local Open Scope float_scope.

Lemma SFeqb_refl (x : spec_float) : x <> S754_nan -> SFeqb x x = true.
Proof.
  destruct x as [s|s| |s m e]; intros H; try reflexivity; try contradiction.
  - destruct s; reflexivity.
  - unfold SFeqb, SFcompare.
    destruct s; rewrite Z.compare_refl, ?Pos.compare_cont_refl; reflexivity.
Qed.

(** On floats too [fwhm(0) == fwhm_at_0], as soon as the slope
    [ref_fwhm / sqrt(ref_x)] is a finite number and [fwhm_at_0] is not NaN:
    the product with [sqrt(0) = 0] is a zero, and adding a zero changes
    nothing. *)
Lemma fwhm_at_zero_binary64 (exp : float -> float) (self : @PeakSearch float) :
  PrimFloat.is_nan (ref_fwhm self / PrimFloat.sqrt (ref_x self)) = false ->
  PrimFloat.is_infinity (ref_fwhm self / PrimFloat.sqrt (ref_x self)) = false ->
  PrimFloat.is_nan (fwhm_at_0 self) = false ->
  (@fwhm _ (F64 exp) self 0 =? fwhm_at_0 self) = true.
Proof.
  unfold fwhm. cbn [fadd fmul fdiv fsqrt F64].
  generalize (ref_fwhm self / PrimFloat.sqrt (ref_x self)). intros k.
  generalize (fwhm_at_0 self). intros f0.
  unfold PrimFloat.is_nan, PrimFloat.is_infinity.
  rewrite !eqb_spec, abs_spec, add_spec, mul_spec.
  change (Prim2SF (PrimFloat.sqrt 0)) with (S754_zero false).
  change (Prim2SF infinity) with (S754_infinity false).
  intros Hk1 Hk2 Hf.
  destruct (Prim2SF k) as [s|s| |s m e]; try discriminate;
    destruct (Prim2SF f0) as [s0|s0| |s0 m0 e0]; try discriminate;
    cbn [SF64mul SFmul SF64add SFadd];
    try (destruct s, s0; reflexivity);
    try (apply SFeqb_refl; discriminate).
Qed.

(** A slope [ref_fwhm / sqrt(ref_x)] that is a finite number leaves no
    choice for [ref_x]: it is above zero.  (At [ref_x = 0] the quotient is
    an infinity or NaN, below zero the square root is NaN.) *)
Lemma finite_slope_positive_ref_x (rf rx : float) :
  PrimFloat.is_nan (rf / PrimFloat.sqrt rx) = false ->
  PrimFloat.is_infinity (rf / PrimFloat.sqrt rx) = false ->
  (0 <? rx) = true.
Proof.
  unfold PrimFloat.is_nan, PrimFloat.is_infinity.
  rewrite !eqb_spec, ltb_spec, abs_spec, div_spec, sqrt_spec.
  change (Prim2SF 0) with (S754_zero false).
  change (Prim2SF infinity) with (S754_infinity false).
  destruct (Prim2SF rx) as [s|s| |s m e].
  - destruct s; cbn [SF64sqrt SFsqrt];
      destruct (Prim2SF rf) as [s1|s1| |s1 m1 e1]; cbn; try discriminate;
      try (destruct s1; discriminate).
  - destruct s; cbn [SF64sqrt SFsqrt]; try reflexivity.
    destruct (Prim2SF rf) as [s1|s1| |s1 m1 e1]; cbn; try discriminate;
    try (destruct s1; discriminate).
  - cbn [SF64sqrt SFsqrt].
    destruct (Prim2SF rf) as [s1|s1| |s1 m1 e1]; cbn; try discriminate;
    try (destruct s1; discriminate).
  - destruct s; [|reflexivity]. cbn [SF64sqrt SFsqrt].
    destruct (Prim2SF rf) as [s1|s1| |s1 m1 e1]; cbn; try discriminate;
    try (destruct s1; discriminate).
Qed.

(** C3, as the code has it.  On binary64 [fwhm(x)] is the value of
    [(ref_fwhm / sqrt(ref_x)) * sqrt(x) + fwhm_at_0] with every operation
    rounded, and [fwhm(0) == fwhm_at_0] holds for the configurations whose
    slope [ref_fwhm / sqrt(ref_x)] is a finite number and whose [fwhm_at_0]
    is not NaN; such a configuration has [ref_x > 0]. *)
Theorem fwhm_at_zero_finite_slope
    (exp : float -> float) (self : @PeakSearch float) (x : float) :
  PrimFloat.is_nan (ref_fwhm self / PrimFloat.sqrt (ref_x self)) = false ->
  PrimFloat.is_infinity (ref_fwhm self / PrimFloat.sqrt (ref_x self)) = false ->
  PrimFloat.is_nan (fwhm_at_0 self) = false ->
  (0 <? ref_x self) = true /\
  @fwhm _ (F64 exp) self x
  = ref_fwhm self / PrimFloat.sqrt (ref_x self) * PrimFloat.sqrt x + fwhm_at_0 self /\
  (@fwhm _ (F64 exp) self 0 =? fwhm_at_0 self) = true.
Proof.
  intros Hnan Hinf Hf0. split; [|split].
  - now apply finite_slope_positive_ref_x with (rf := ref_fwhm self).
  - reflexivity.
  - now apply fwhm_at_zero_binary64.
Qed.

Lemma fwhm_at_zero_finite_slope_witness :
  (0 <? 50) = true /\
  @fwhm _ (F64 exp_run) (fresh (Spectrum [0; 0; 4; 0] [0; 1; 2; 3]) 50 5 1 2) 3
  = 5 / PrimFloat.sqrt 50 * PrimFloat.sqrt 3 + 1 /\
  (@fwhm _ (F64 exp_run) (fresh (Spectrum [0; 0; 4; 0] [0; 1; 2; 3]) 50 5 1 2) 0 =? 1)
  = true.
Proof.
  apply (@fwhm_at_zero_finite_slope exp_run
           (fresh (Spectrum [0; 0; 4; 0] [0; 1; 2; 3]) 50 5 1 2) 3);
    reflexivity.
Defined.

(** The claim C3 fails where the slope overflows: [ref_x = 2^-1000] is
    above zero and [ref_fwhm = 2^700] is finite, but their quotient
    [2^700 / 2^-500] is an infinity, its product with [sqrt(0) = 0] is NaN,
    and [fwhm(0)] is NaN, not [fwhm_at_0 = 1]. *)
Lemma fwhm_at_zero_overflowing_slope :
  (0 <? 0x1p-1000) = true /\
  PrimFloat.is_nan
    (@fwhm _ (F64 exp_run)
       (fresh (Spectrum [0; 0; 4; 0] [0; 1; 2; 3]) 0x1p-1000 0x1p+700 1 2) 0) = true /\
  (@fwhm _ (F64 exp_run)
     (fresh (Spectrum [0; 0; 4; 0] [0; 1; 2; 3]) 0x1p-1000 0x1p+700 1 2) 0 =? 1) = false.
Proof. vm_compute. repeat split. Qed.
End Fwhm64.

(** ** Exact arithmetic: the kernel matrix and the decomposition over R *)

Module Exact.
Import RR ArrayFacts.
Local Open Scope R_scope.
#[local] Existing Instance Rops.

Ltac real_ops :=
  cbn [of_Z lit_2_355 fadd fsub fmul fdiv fneg fsqrt fexp fltb fleb feqb fisnan Rops] in *.

Lemma pos_part_eq (v : R) : pos_part v = Rmax v 0.
Proof.
  unfold pos_part, np_clip, zero. real_ops. unfold Rltb, Rmax.
  destruct (Rlt_dec 0 v), (Rle_dec v 0); lra.
Qed.

Lemma neg_part_eq (v : R) : neg_part v = - Rmin v 0.
Proof.
  unfold neg_part, np_clip, zero. real_ops. unfold Rltb, Rmin.
  destruct (Rlt_dec v 0), (Rle_dec v 0); lra.
Qed.

Lemma pos_part_nonneg (v : R) : 0 <= pos_part v.
Proof. rewrite pos_part_eq. apply Rmax_r. Qed.

Lemma neg_part_nonneg (v : R) : 0 <= neg_part v.
Proof. rewrite neg_part_eq. pose proof (Rmin_r v 0). lra. Qed.

(** An entry is its positive part minus its negative part. *)
Lemma pos_neg_split (v : R) : v = pos_part v - neg_part v.
Proof.
  rewrite pos_part_eq, neg_part_eq. unfold Rmax, Rmin.
  destruct (Rle_dec v 0); lra.
Qed.

(** The entry of [kmat] built from the raw entry [k] with the column's
    ratio [s], when [s] is not negative: clipping gives back the positive
    part of [k] and the rescaled negative part. *)
Lemma rescaled_entry_parts (k s : R) :
  0 <= s ->
  pos_part (pos_part k - neg_part k * s) = pos_part k /\
  neg_part (pos_part k - neg_part k * s) = neg_part k * s.
Proof.
  intros Hs. rewrite !pos_part_eq, !neg_part_eq. unfold Rmax, Rmin.
  destruct (Rle_dec k 0) as [Hk|Hk].
  - assert (0 <= - k * s) by (apply Rmult_le_pos; lra).
    destruct (Rle_dec (0 - - k * s) 0); lra.
  - destruct (Rle_dec (k - - 0 * s) 0); lra.
Qed.

Lemma Rsum_app (l1 l2 : list R) : Rsum (l1 ++ l2) = Rsum l1 + Rsum l2.
Proof. unfold Rsum. induction l1 as [|x l1 IH]; cbn; [lra|]. rewrite IH. lra. Qed.

Lemma fold_left_Rplus (l : list R) (a : R) : fold_left Rplus l a = a + Rsum l.
Proof.
  unfold Rsum. revert a. induction l as [|x l IH]; intros a; cbn; [lra|].
  rewrite IH. lra.
Qed.

Lemma Rsum_nonneg (l : list R) : Forall (fun v => 0 <= v) l -> 0 <= Rsum l.
Proof. unfold Rsum. induction 1; cbn; lra. Qed.



(** *** One column of the kernel matrix *)

(** The ratio is never negative (over R the quotient by 0 is 0). *)
Lemma ratio_nonneg (p n : R) : 0 <= p -> 0 <= n -> 0 <= p / n.
Proof.
  intros Hp Hn. destruct (Req_dec n 0) as [->|Hne].
  - unfold Rdiv. rewrite Rinv_0. lra.
  - apply Rmult_le_pos; [lra|]. left. apply Rinv_0_lt_compat. lra.
Qed.

Section Column.
Variable c : list R.               (* a column of the raw kernel matrix *)
Let P := Rsum (map pos_part c).    (* kern_pos.sum(axis=0)[i] *)





End Column.

(** *** Columns of 2-D arrays *)

Lemma nth_map_in (f : R -> R) (row : list R) (i : nat) :
  (i < length row)%nat -> nth i (map f row) 0 = f (nth i row 0).
Proof.
  intros Hi. rewrite (nth_indep _ 0 (f 0)) by (now rewrite length_map).
  apply map_nth.
Qed.

Lemma col_length (i : nat) (m : list (list R)) : length (col i m) = length m.
Proof. apply length_map. Qed.

Lemma col_map (f : R -> R) (n i : nat) (m : list (list R)) :
  rows_of_length n m -> (i < n)%nat ->
  col i (map (map f) m) = map f (col i m).
Proof.
  unfold rows_of_length in *.
  intros Hm Hi. unfold col. rewrite !map_map.
  apply map_ext_in. intros row Hrow.
  apply nth_map_in. rewrite Forall_forall in Hm. rewrite (Hm _ Hrow). exact Hi.
Qed.

Lemma col_zip_rows (f : R -> R -> R) (n i : nat) (a b : list (list R)) :
  rows_of_length n a -> rows_of_length n b -> (i < n)%nat ->
  col i (zip_with (zip_with f) a b) = zip_with f (col i a) (col i b).
Proof.
  unfold rows_of_length in *.
  unfold col. intros Ha. revert b.
  induction Ha as [|r a Hr Ha IH]; intros b Hb Hi; [reflexivity|].
  destruct Hb as [|r' b Hr' Hb]; [reflexivity|].
  cbn [zip_with map]. rewrite IH by assumption. f_equal.
  apply zip_with_nth; lia.
Qed.

Lemma col_scale_rows (n i : nat) (m : list (list R)) (ratio : list R) :
  rows_of_length n m -> length ratio = n -> (i < n)%nat ->
  col i (map (fun row => zip_with Rmult row ratio) m)
  = map (fun v => v * nth i ratio 0) (col i m).
Proof.
  unfold rows_of_length in *.
  intros Hm Hr Hi. unfold col. rewrite !map_map.
  apply map_ext_in. intros row Hrow.
  rewrite Forall_forall in Hm. specialize (Hm _ Hrow).
  apply zip_with_nth; lia.
Qed.

Lemma zip_with_map_same (f g : R -> R) (h : R -> R -> R) (l : list R) :
  zip_with h (map f l) (map g l) = map (fun k => h (f k) (g k)) l.
Proof. induction l as [|x l IH]; cbn; [reflexivity|]. now rewrite IH. Qed.

Lemma rows_of_length_map (f : R -> R) (n : nat) (m : list (list R)) :
  rows_of_length n m -> rows_of_length n (map (map f) m).
Proof.
  unfold rows_of_length in *.
  intros Hm. apply Forall_map. eapply Forall_impl; [|exact Hm].
  intros row Hrow. cbn. now rewrite length_map.
Qed.

Lemma rows_of_length_scale (n : nat) (m : list (list R)) (ratio : list R) :
  rows_of_length n m -> length ratio = n ->
  rows_of_length n (map (fun row => zip_with Rmult row ratio) m).
Proof.
  unfold rows_of_length in *.
  intros Hm Hr. apply Forall_map. eapply Forall_impl; [|exact Hm].
  intros row Hrow. cbn in *. rewrite zip_with_length. lia.
Qed.

(** *** [sum(axis=0)] *)

Lemma fold_rows_length (n : nat) (rs : list (list R)) :
  rows_of_length n rs -> forall r, length r = n ->
  length (fold_left (zip_with Rplus) rs r) = n.
Proof.
  unfold rows_of_length in *.
  induction 1 as [|r' rs Hr' Hrs IH]; intros r Hr; cbn; [exact Hr|].
  apply IH. rewrite zip_with_length. lia.
Qed.

Lemma fold_rows_nth (n i : nat) (rs : list (list R)) :
  rows_of_length n rs -> (i < n)%nat -> forall r, length r = n ->
  nth i (fold_left (zip_with Rplus) rs r) 0 = nth i r 0 + Rsum (col i rs).
Proof.
  unfold rows_of_length in *.
  unfold col, Rsum. intros Hrs Hi.
  induction Hrs as [|r' rs Hr' Hrs IH]; intros r Hr; cbn [fold_left fold_right map]; [lra|].
  rewrite IH by (rewrite zip_with_length; lia).
  rewrite (zip_with_nth Rplus r r' 0 0 0) by lia. lra.
Qed.

Lemma sum_axis0_length (n : nat) (m : list (list R)) :
  rows_of_length n m -> length (sum_axis0 n m) = n.
Proof.
  unfold rows_of_length in *.
  intros Hm. destruct Hm as [|r rs Hr Hrs]; cbn.
  - apply repeat_length.
  - now apply fold_rows_length.
Qed.

Lemma sum_axis0_nth (n i : nat) (m : list (list R)) :
  rows_of_length n m -> (i < n)%nat ->
  nth i (sum_axis0 n m) 0 = Rsum (col i m).
Proof.
  unfold rows_of_length in *.
  intros Hm Hi. destruct Hm as [|r rs Hr Hrs]; cbn [sum_axis0].
  - unfold col, Rsum, zero. cbn. apply nth_repeat.
  - rewrite (@fold_rows_nth n) by assumption. unfold col, Rsum. cbn. reflexivity.
Qed.

(** *** The kernel matrix, column by column *)

Lemma set_col_rows (n i : nat) (m : list (list R)) (cl : list R) :
  rows_of_length n m -> rows_of_length n (set_col m i cl).
Proof.
  unfold rows_of_length, set_col. intros Hm. revert cl.
  induction Hm as [|r m Hr Hm IH]; intros [|v cl]; cbn [zip_with]; constructor; auto.
  now rewrite set_nth_length.
Qed.

Lemma kernel_matrix_eq (self : @PeakSearch R) (edges : list R) (kmat : list (list R)) :
  kernel_matrix self edges = Ok kmat ->
  kmat = zip_with (zip_with Rminus)
           (clip_pos (kern_raw self edges))
           (rescale_neg (length edges - 1) (clip_pos (kern_raw self edges))
                        (clip_neg (kern_raw self edges))).
Proof.
  unfold kernel_matrix. destruct edges as [|e es]; [discriminate|].
  intros H. now injection H as <-.
Qed.

Section KernelMatrix.
Variable self : @PeakSearch R.
Variable edges : list R.
Let n := (length edges - 1)%nat.
Let K := kern_raw self edges.

Lemma kern_raw_rows : rows_of_length n K.
Proof.
  unfold K, kern_raw, enumerate. fold n.
  assert (H0 : rows_of_length n (np_zeros2 n n)).
  { unfold rows_of_length, np_zeros2. apply Forall_forall. intros row Hrow.
    apply repeat_spec in Hrow. subst row. apply repeat_length. }
  revert H0. generalize (np_zeros2 n n). generalize 0%nat.
  induction (removelast edges) as [|x xs IH]; intros i m Hm; cbn [enumerate_from fold_left]; auto.
  apply IH. now apply set_col_rows.
Qed.

(** Column [i] of the returned matrix, from column [i] of the raw one. *)
Lemma kernel_matrix_col (kmat : list (list R)) (i : nat) :
  kernel_matrix self edges = Ok kmat -> (i < n)%nat ->
  nth i (sum_axis0 n (clip_pos K)) 0 = Rsum (map pos_part (col i K)) /\
  nth i (sum_axis0 n (clip_neg K)) 0 = Rsum (map neg_part (col i K)) /\
  col i kmat
  = map (fun k => pos_part k - neg_part k *
                  (Rsum (map pos_part (col i K)) / Rsum (map neg_part (col i K))))
        (col i K).
Proof.
  intros Hk Hi. apply kernel_matrix_eq in Hk. subst kmat. fold n K.
  pose proof kern_raw_rows as HK.
  assert (HP : rows_of_length n (clip_pos K)) by now apply rows_of_length_map.
  assert (HN : rows_of_length n (clip_neg K)) by now apply rows_of_length_map.
  assert (HcP : col i (clip_pos K) = map pos_part (col i K))
    by now apply col_map with (n := n).
  assert (HcN : col i (clip_neg K) = map neg_part (col i K))
    by now apply col_map with (n := n).
  rewrite !(@sum_axis0_nth n) by assumption. rewrite HcP, HcN.
  split; [reflexivity|]. split; [reflexivity|].
  unfold rescale_neg. real_ops.
  set (ratio := zip_with Rdiv (sum_axis0 n (clip_pos K)) (sum_axis0 n (clip_neg K))).
  assert (Hrl : length ratio = n).
  { unfold ratio. rewrite zip_with_length, !sum_axis0_length by assumption. lia. }
  assert (Hri : nth i ratio 0
                = Rsum (map pos_part (col i K)) / Rsum (map neg_part (col i K))).
  { unfold ratio.
    rewrite (zip_with_nth Rdiv _ _ 0 0 0) by (rewrite sum_axis0_length by assumption; lia).
    rewrite !(@sum_axis0_nth n) by assumption. now rewrite HcP, HcN. }
  rewrite (@col_zip_rows Rminus n) by (auto using rows_of_length_scale).
  rewrite (@col_scale_rows n) by assumption.
  rewrite HcP, HcN, Hri, map_map.
  apply (zip_with_map_same pos_part
           (fun k => neg_part k *
                     (Rsum (map pos_part (col i K)) / Rsum (map neg_part (col i K))))
           Rminus).
Qed.
End KernelMatrix.


(** *** The decomposition returned by [convolve] *)

Lemma dot_row_split (row data : list R) :
  dot_row row data
  = dot_row (map pos_part row) data - dot_row (map neg_part row) data.
Proof.
  unfold dot_row, zero. real_ops. rewrite !fold_left_Rplus.
  enough (H : Rsum (zip_with Rmult row data)
              = Rsum (zip_with Rmult (map pos_part row) data)
                - Rsum (zip_with Rmult (map neg_part row) data)) by lra.
  unfold Rsum. revert data.
  induction row as [|v row IH]; intros [|d data]; cbn [map zip_with fold_right]; try lra.
  rewrite IH. rewrite (pos_neg_split v) at 1. lra.
Qed.

Lemma sum_axis0_nonneg (n : nat) (m : list (list R)) :
  Forall (Forall (fun v => 0 <= v)) m -> Forall (fun v => 0 <= v) (sum_axis0 n m).
Proof.
  intros Hm. destruct Hm as [|r rs Hr Hrs]; cbn [sum_axis0].
  - apply Forall_forall. intros v Hv. apply repeat_spec in Hv. subst v.
    unfold zero. real_ops. lra.
  - revert r Hr. induction Hrs as [|r' rs Hr' Hrs IH]; intros r Hr; cbn [fold_left]; auto.
    apply IH. real_ops.
    apply (Forall_zip_with (P := fun v => 0 <= v) (Q := fun v => 0 <= v)); auto.
    intros a b Ha Hb. lra.
Qed.

(** Clipping a row of [kmat] gives back the positive part of the raw row
    and its rescaled negative part. *)
Lemma rescaled_row_parts (row ratio : list R) :
  length ratio = length row -> Forall (fun s => 0 <= s) ratio ->
  let row' := zip_with Rminus (map pos_part row)
                (zip_with Rmult (map neg_part row) ratio) in
  map pos_part row' = map pos_part row /\
  map neg_part row' = zip_with Rmult (map neg_part row) ratio.
Proof.
  cbv zeta. revert ratio.
  induction row as [|k row IH]; intros [|s ratio] Hl Hs; cbn in Hl; try discriminate;
    [split; reflexivity|].
  inversion Hs as [|? ? Hs0 Hs']; subst.
  destruct (IH ratio) as [IHp IHn]; [lia|assumption|].
  destruct (rescaled_entry_parts k Hs0) as [Hp Hn].
  cbn [map zip_with]. rewrite IHp, IHn, Hp, Hn. split; reflexivity.
Qed.

(** *** A concrete kernel with a negative lobe *)

Lemma exp_gap : 2 * exp (-2) < exp (- (1 / 2)).
Proof.
  replace (-2) with (- (1 / 2) + - (3 / 2)) by lra. rewrite exp_plus.
  assert (H1 : 0 < exp (- (1 / 2))) by apply exp_pos.
  assert (H2 : exp (- (3 / 2)) < 1 / 2).
  { rewrite exp_Ropp.
    assert (H3 : 2 < exp (3 / 2)) by (pose proof (exp_ineq1 (3 / 2)); lra).
    apply Rinv_lt_contravar in H3; [lra|]. nra. }
  nra.
Qed.


End Exact.

(** ** A peak of exactly the minimal height, in exact arithmetic *)

Module Threshold.
Import RR ArrayFacts Exact Construction Validation.
Local Open Scope R_scope.
#[local] Existing Instance Rops.

Lemma sigma_at_2 : (1.355 / sqrt 2 * sqrt 2 + 1) / 2.355 = 1.
Proof.
  assert (H : sqrt 2 <> 0) by (apply Rgt_not_eq, sqrt_lt_R0; lra).
  unfold Rdiv at 2. rewrite Rmult_assoc, (Rinv_l _ H). lra.
Qed.

Lemma spike_raw_col :
  col 2 (kern_raw spike [0; 1; 2; 3; 3 + 1])
  = [2 * exp (-2) - exp (- (1 / 2)); exp (- (1 / 2)); exp (- (1 / 2));
     2 * exp (-2) - exp (- (1 / 2))].
Proof.
  unfold kern_raw, kernel, fwhm, gaussian_derivative, gaussian_derivative1, gaussian1, col.
  cbn [length Nat.sub removelast tl enumerate enumerate_from fold_left fst snd
       np_zeros2 repeat set_col zip_with set_nth map nth spike fresh
       ref_x ref_fwhm fwhm_at_0].
  real_ops. rewrite sigma_at_2.
  replace (- ((0 - 2) / 1 * ((0 - 2) / 1)) / 2) with (-2) by lra.
  replace (- ((1 - 2) / 1 * ((1 - 2) / 1)) / 2) with (- (1 / 2)) by lra.
  replace (- ((3 - 2) / 1 * ((3 - 2) / 1)) / 2) with (- (1 / 2)) by lra.
  replace (- ((3 + 1 - 2) / 1 * ((3 + 1 - 2) / 1)) / 2) with (-2) by lra.
  repeat (f_equal; try lra).
Qed.

Lemma spike_kmat_col (kmat : list (list R)) :
  kernel_matrix spike [0; 1; 2; 3; 3 + 1] = Ok kmat ->
  col 2 kmat = [- exp (- (1 / 2)); exp (- (1 / 2)); exp (- (1 / 2)); - exp (- (1 / 2))].
Proof.
  intros Hk.
  destruct (@kernel_matrix_col spike _ kmat 2 Hk) as (_ & _ & ->); [cbn; lia|].
  rewrite spike_raw_col.
  pose proof exp_gap as Hg. pose proof (exp_pos (- (1 / 2))) as He.
  set (e := exp (- (1 / 2))) in *. set (a := 2 * exp (-2) - e) in *.
  assert (Ha : a < 0) by (unfold a; lra).
  cbn [map]. rewrite !pos_part_eq, !neg_part_eq.
  rewrite (Rmax_right a 0), (Rmin_left a 0), (Rmax_left e 0), (Rmin_right e 0) by lra.
  unfold Rsum. cbn [fold_right].
  repeat (f_equal; try (field; lra)).
Qed.

Lemma dot_row_spike (row : list R) : dot_row row [0; 0; 4; 0] = 4 * nth 2 row 0.
Proof.
  unfold dot_row, zero. real_ops.
  destruct row as [|r0 [|r1 [|r2 [|r3 row]]]]; cbn [zip_with fold_left nth];
    try (destruct row; cbn [zip_with fold_left]); lra.
Qed.

Lemma nth_square (row : list R) : nth 2 (map (fun v => v * v) row) 0 = nth 2 row 0 * nth 2 row 0.
Proof. destruct row as [|r0 [|r1 [|r2 row]]]; cbn [map nth]; lra. Qed.

Lemma spike_convolve ppb bk sg ns sn :
  convolve spike [0; 1; 2; 3; 3 + 1] [0; 0; 4; 0] = Ok (ppb, bk, sg, ns, sn) ->
  sn = [-2; 2; 2; -2].
Proof.
  intros H. apply convolve_inv in H. destruct H as (kmat & Hk & _ & H).
  cbv zeta in H. injection H as _ _ Hsg Hns Hsn.
  pose proof (spike_kmat_col Hk) as Hcol. unfold col in Hcol.
  pose proof (exp_pos (- (1 / 2))) as He. set (e := exp (- (1 / 2))) in *.
  assert (Hsg' : sg = [4 * - e; 4 * e; 4 * e; 4 * - e]).
  { rewrite Hsg. rewrite (map_ext _ (fun row => 4 * nth 2 row 0)) by apply dot_row_spike.
    change (map (fun row => 4 * nth 2 row 0) kmat)
      with (map (fun row => (fun v => 4 * v) (nth 2 row 0)) kmat).
    rewrite <- (map_map (fun row => nth 2 row 0) (fun v => 4 * v)), Hcol. reflexivity. }
  assert (Hns' : ns = [2 * e; 2 * e; 2 * e; 2 * e]).
  { rewrite Hns. real_ops. rewrite !map_map.
    rewrite (map_ext _ (fun row => (fun v => sqrt (4 * (v * v))) (nth 2 row 0))).
    2:{ intros row. rewrite dot_row_spike, nth_square. reflexivity. }
    rewrite <- (map_map (fun row => nth 2 row 0) (fun v => sqrt (4 * (v * v)))), Hcol.
    cbn [map].
    replace (4 * (- e * - e)) with ((2 * e) * (2 * e)) by ring.
    replace (4 * (e * e)) with ((2 * e) * (2 * e)) by ring.
    rewrite sqrt_square by lra. reflexivity. }
  rewrite Hsn, <- Hsg, <- Hns, Hsg', Hns'. unfold snr_of, zero. cbn [zip_with]. real_ops.
  unfold Rltb. destruct (Rlt_dec 0 (2 * e)) as [_|Hn]; [|lra].
  repeat (f_equal; try (field; lra)).
Qed.

Lemma Rltb_true (x y : R) : x < y -> Rltb x y = true.
Proof. intros H. unfold Rltb. destruct (Rlt_dec x y); [reflexivity|contradiction]. Qed.

Lemma Rltb_false (x y : R) : ~ x < y -> Rltb x y = false.
Proof. intros H. unfold Rltb. destruct (Rlt_dec x y); [contradiction|reflexivity]. Qed.

Lemma Rleb_true (x y : R) : x <= y -> Rleb x y = true.
Proof. intros H. unfold Rleb. destruct (Rle_dec x y); [reflexivity|contradiction]. Qed.

Lemma Rleb_false (x y : R) : ~ x <= y -> Rleb x y = false.
Proof. intros H. unfold Rleb. destruct (Rle_dec x y); [contradiction|reflexivity]. Qed.

Lemma Reqb_true (x y : R) : x = y -> Reqb x y = true.
Proof. intros H. unfold Reqb. destruct (Req_dec_T x y); [reflexivity|contradiction]. Qed.

Lemma Reqb_false (x y : R) : x <> y -> Reqb x y = false.
Proof. intros H. unfold Reqb. destruct (Req_dec_T x y); [contradiction|reflexivity]. Qed.

Ltac decide_real :=
  match goal with
  | |- context [Rltb ?a ?b] =>
      first [rewrite (@Rltb_true a b) by lra | rewrite (@Rltb_false a b) by lra]
  | |- context [Rleb ?a ?b] =>
      first [rewrite (@Rleb_true a b) by lra | rewrite (@Rleb_false a b) by lra]
  | |- context [Reqb ?a ?b] =>
      first [rewrite (@Reqb_true a b) by lra | rewrite (@Reqb_false a b) by lra]
  end.

Ltac run_peaks :=
  cbn [length Nat.sub local_maxima_loop look_ahead Nat.ltb Nat.leb nth andb orb
       filter map]; real_ops.

Lemma clip_spike : map (fun v : R => np_maximum v zero) [-2; 2; 2; -2] = [0; 2; 2; 0].
Proof.
  unfold np_maximum, zero. cbn [map]. real_ops.
  repeat decide_real. reflexivity.
Qed.

Lemma find_peaks_plateau : find_peaks [0; 2; 2; 0] 2 = [1%nat].
Proof.
  unfold find_peaks, local_maxima_1d, zero.
  repeat (run_peaks; decide_real).
  change ((1 + 2) / 2)%nat with 1%nat.
  run_peaks. decide_real. reflexivity.
Qed.

Lemma peak_at_threshold_exact :
  exists ps,
    __init__ (Spectrum [0; 0; 4; 0] [0; 1; 2; 3]) 2 1.355 1 2 = Ok ps /\
    snr ps = [0; 2; 2; 0] /\ peaks_idx ps = [1%nat] /\ min_snr ps = 2 /\
    ~ (min_snr ps < nth 1 (snr ps) 0).
Proof.
  destruct (@init_returns R _ (Spectrum [0; 0; 4; 0] [0; 1; 2; 3]) 2 1.355 1 2)
    as (ps & Hps & _); [reflexivity|discriminate|reflexivity|].
  exists ps. split; [exact Hps|].
  rewrite init_calculate in Hps by reflexivity.
  destruct (calculate_inv _ Hps)
    as (c & cs & ppb & bk & sg & ns & sn & _ & Hc & _ & _ & _ & _ & Hsnr & Hpk & _ & Hms & _).
  cbn [spectrum fresh channels counts Spectrum app last] in Hc. real_ops.
  apply spike_convolve in Hc. subst sn.
  rewrite clip_spike in Hsnr. rewrite Hsnr in Hpk. cbn [min_snr fresh] in Hpk, Hms.
  rewrite find_peaks_plateau in Hpk.
  rewrite Hsnr, Hpk, Hms. cbn [nth]. repeat split. lra.
Qed.

(** The claim C6 fails where a peak has exactly the height [min_snr]: for
    the counts [0, 0, 4, 0] on the channels 0..3 with [ref_x = 2],
    [ref_fwhm = 1.355], [fwhm_at_0 = 1] and [min_snr = 2], index 1 is
    reported with a clipped SNR of exactly 2, which is not above [min_snr].
    This is so in exact arithmetic and on binary64 floats. *)
Lemma peak_at_threshold_is_reported :
  (exists ps,
     __init__ (Spectrum [0; 0; 4; 0] [0; 1; 2; 3]) 2 1.355 1 2 = Ok ps /\
     snr ps = [0; 2; 2; 0] /\ peaks_idx ps = [1%nat] /\ min_snr ps = 2 /\
     ~ (min_snr ps < nth 1 (snr ps) 0)) /\
  (exists ps,
     @__init__ _ (B64.F64 B64.exp_run)
               (Spectrum [0; 0; 4; 0] [0; 1; 2; 3])%float
               2%float 0x1.5ae147ae147aep+0%float 1%float 2%float = Ok ps /\
     snr ps = [0; 2; 2; 0]%float /\ peaks_idx ps = [1%nat] /\ min_snr ps = 2%float /\
     PrimFloat.ltb (min_snr ps) (nth 1 (snr ps) 0%float) = false).
Proof.
  split; [exact peak_at_threshold_exact|exact Peaks.peak_at_threshold_binary64].
Qed.
End Threshold.

(** ** The loop of [kernel_matrix] and the shape of its result *)

Module KernelShape.
Import ArrayFacts.

Section Lists.
Context {A : Type}.

Lemma nth_set_nth_eq (i : nat) (v d : A) (l : list A) :
  (i < length l)%nat -> nth i (set_nth i v l) d = v.
Proof.
  revert i. induction l as [|x l IH]; intros [|i] Hi; cbn in *; try lia; auto.
  apply IH. lia.
Qed.

Lemma nth_set_nth_neq (i k : nat) (v d : A) (l : list A) :
  i <> k -> nth k (set_nth i v l) d = nth k l d.
Proof.
  revert i k. induction l as [|x l IH]; intros [|i] [|k] Hik; cbn; auto; try lia.
Qed.

Lemma nth_set_col (m : list (list A)) (i j : nat) (cl : list A) (d : A) :
  (j < length m)%nat -> (j < length cl)%nat ->
  nth j (set_col m i cl) [] = set_nth i (nth j cl d) (nth j m []).
Proof.
  intros Hm Hc. unfold set_col.
  now rewrite (zip_with_nth (fun row v => set_nth i v row) m cl [] d [] Hm Hc).
Qed.

Lemma set_col_rows_length (n i : nat) (m : list (list A)) (cl : list A) :
  Forall (fun row => length row = n) m ->
  Forall (fun row => length row = n) (set_col m i cl).
Proof.
  unfold set_col. intros Hm. revert cl.
  induction Hm as [|r m Hr Hm IH]; intros [|v cl]; cbn [zip_with]; constructor; auto.
  now rewrite set_nth_length.
Qed.

Lemma nth_removelast (l : list A) (i : nat) (d : A) :
  (i < length l - 1)%nat -> nth i (removelast l) d = nth i l d.
Proof.
  revert i. induction l as [|x [|y l] IH]; intros i Hi; cbn in Hi; try lia.
  destruct i as [|i]; [reflexivity|].
  change (nth i (removelast (y :: l)) d = nth i (y :: l) d).
  apply IH. cbn. lia.
Qed.

(** A loop that writes column [start], [start + 1], ... of a matrix with [n]
    rows: afterwards each written column holds what was written to it, and
    every other entry is as before. *)
Lemma fold_set_col (g : A -> list A) (n : nat) (d : A) :
  (forall x, length (g x) = n) ->
  forall (xs : list A) (start : nat) (m0 : list (list A)),
    length m0 = n -> Forall (fun row => length row = n) m0 ->
    let r := fold_left (fun kern ix => set_col kern (fst ix) (g (snd ix)))
                       (enumerate_from start xs) m0 in
    length r = n /\ Forall (fun row => length row = n) r /\
    forall i j, (i < n)%nat -> (j < n)%nat ->
      nth i (nth j r []) d
      = if Nat.leb start i && Nat.ltb i (start + length xs)
        then nth j (g (nth (i - start) xs d)) d
        else nth i (nth j m0 []) d.
Proof.
  intros Hg. induction xs as [|x xs IH]; intros start m0 Hl Hrows; cbv zeta.
  - cbn [enumerate_from fold_left length]. repeat split; auto.
    intros i j Hi Hj.
    destruct (Nat.leb start i) eqn:H1; cbn [andb]; auto.
    apply Nat.leb_le in H1.
    replace (Nat.ltb i (start + 0)) with false; auto.
    symmetry. apply Nat.ltb_ge. lia.
  - cbn [enumerate_from fold_left fst snd].
    assert (Hl' : length (set_col m0 start (g x)) = n)
      by (rewrite set_col_length; rewrite ?Hg; lia).
    pose proof (set_col_rows_length start (g x) Hrows) as Hrows'.
    destruct (IH (S start) _ Hl' Hrows') as (H1 & H2 & H3). cbv zeta in H1, H2, H3.
    split; [exact H1|]. split; [exact H2|].
    intros i j Hi Hj. rewrite (H3 i j Hi Hj). cbn [length].
    assert (Hrowj : length (nth j m0 []) = n).
    { rewrite Forall_forall in Hrows. apply Hrows, nth_In. lia. }
    destruct (Nat.leb (S start) i) eqn:Ha.
    + apply Nat.leb_le in Ha.
      replace (Nat.leb start i) with true by (symmetry; apply Nat.leb_le; lia).
      replace (Nat.ltb i (start + S (length xs))) with (Nat.ltb i (S start + length xs))
        by (f_equal; lia).
      cbn [andb].
      destruct (Nat.ltb i (S start + length xs)) eqn:Hb.
      * replace (i - start)%nat with (S (i - S start)) by lia. reflexivity.
      * apply Nat.ltb_ge in Hb.
        rewrite (nth_set_col m0 start (g x) d) by (rewrite ?Hg; lia).
        rewrite nth_set_nth_neq by lia. reflexivity.
    + apply Nat.leb_gt in Ha. cbn [andb].
      rewrite (nth_set_col m0 start (g x) d) by (rewrite ?Hg; lia).
      destruct (Nat.eq_dec start i) as [<-|Hne].
      * rewrite nth_set_nth_eq by lia.
        rewrite Nat.leb_refl.
        replace (Nat.ltb start (start + S (length xs))) with true
          by (symmetry; apply Nat.ltb_lt; lia).
        cbn [andb]. rewrite Nat.sub_diag. reflexivity.
      * rewrite nth_set_nth_neq by lia.
        replace (Nat.leb start i) with false by (symmetry; apply Nat.leb_gt; lia).
        reflexivity.
Qed.
End Lists.

Section Generic.
Context {T : Type} {ops : NumOps T}.
Variable self : @PeakSearch T.

Lemma kern_raw_loop (edges : list T) :
  let n := (length edges - 1)%nat in
  square n (kern_raw self edges) /\
  forall i j, (i < n)%nat -> (j < n)%nat ->
    nth i (nth j (kern_raw self edges) []) zero
    = nth j (kernel self (nth i edges zero) edges) zero.
Proof.
  cbv zeta. unfold kern_raw, enumerate, square.
  set (n := (length edges - 1)%nat).
  assert (H0 : length (np_zeros2 n n) = n) by (unfold np_zeros2; apply repeat_length).
  assert (H1 : Forall (fun row : list T => length row = n) (np_zeros2 n n)).
  { unfold np_zeros2. apply Forall_forall. intros row Hrow.
    apply repeat_spec in Hrow. subst row. apply repeat_length. }
  destruct (@fold_set_col T (fun x => kernel self x edges) n zero
              (fun x => kernel_length self x edges) (removelast edges) 0%nat
              (np_zeros2 n n) H0 H1) as (Ha & Hb & Hc).
  cbv zeta in Ha, Hb, Hc. repeat split; auto.
  intros i j Hi Hj. rewrite (Hc i j Hi Hj).
  rewrite removelast_length. fold n. cbn [Nat.leb Nat.add andb].
  replace (Nat.ltb i n) with true by (symmetry; apply Nat.ltb_lt; lia).
  rewrite Nat.sub_0_r, nth_removelast by (fold n; lia). reflexivity.
Qed.

Lemma kernel_entry (x : T) (edges : list T) (j : nat) :
  (j < length edges - 1)%nat ->
  nth j (kernel self x edges) zero
  = fsub (gaussian_derivative1 (nth j edges zero) x (fdiv (fwhm self x) lit_2_355))
         (gaussian_derivative1 (nth (S j) edges zero) x (fdiv (fwhm self x) lit_2_355)).
Proof.
  intros Hj. unfold kernel, gaussian_derivative.
  rewrite (zip_with_nth fsub _ _ zero zero zero)
    by (rewrite length_map, ?removelast_length, ?tl_length; lia).
  set (f := fun xi => gaussian_derivative1 xi x (fdiv (fwhm self x) lit_2_355)).
  rewrite (nth_indep (map f (removelast edges)) zero (f zero))
    by (rewrite length_map, removelast_length; lia).
  rewrite (nth_indep (map f (tl edges)) zero (f zero))
    by (rewrite length_map, tl_length; lia).
  rewrite !map_nth, nth_removelast by lia.
  destruct edges as [|e es]; [cbn in Hj; lia|]. reflexivity.
Qed.

Lemma zipped_rows_square (n : nat) (f : T -> T -> T) (a b : list (list T)) :
  square n a -> square n b -> square n (zip_with (zip_with f) a b).
Proof.
  unfold square. intros [Hla Ha] [Hlb Hb]. split.
  - rewrite zip_with_length. lia.
  - clear Hla Hlb. revert b Hb.
    induction Ha as [|r a Hr Ha IH]; intros b Hb; [constructor|].
    destruct Hb as [|r' b Hr' Hb]; cbn [zip_with]; constructor; auto.
    rewrite zip_with_length. lia.
Qed.

Lemma mapped_rows_square (n : nat) (f : T -> T) (m : list (list T)) :
  square n m -> square n (map (map f) m).
Proof.
  unfold square. intros [Hl Hm]. split; [now rewrite length_map|].
  apply Forall_map. eapply Forall_impl; [|exact Hm].
  intros row Hrow. cbn. now rewrite length_map.
Qed.

Lemma sum_rows_length (n : nat) (m : list (list T)) :
  Forall (fun row => length row = n) m -> length (sum_axis0 n m) = n.
Proof.
  intros Hm. destruct Hm as [|r rs Hr Hrs]; cbn [sum_axis0]; [apply repeat_length|].
  revert r Hr. induction Hrs as [|r' rs Hr' Hrs IH]; intros r Hr; cbn [fold_left]; auto.
  apply IH. rewrite zip_with_length. lia.
Qed.

Lemma rescaled_rows_square (n : nat) (a b : list (list T)) :
  square n a -> square n b -> square n (rescale_neg n a b).
Proof.
  unfold rescale_neg. intros [Hla Ha] [Hlb Hb]. split; [now rewrite length_map|].
  apply Forall_map. eapply Forall_impl; [|exact Hb].
  intros row Hrow. cbn in *.
  rewrite !zip_with_length, !sum_rows_length by assumption. lia.
Qed.
End Generic.

(** X1.  The loop of [kernel_matrix] fills the whole matrix: entry [(j, i)]
    of the raw kernel matrix is the kernel centred at [edges[i]], taken
    between the edges [j] and [j + 1], with the width [fwhm(edges[i]) / 2.355];
    nothing of the initial zeros is left. *)
Theorem kern_raw_entry {T : Type} {ops : NumOps T}
    (self : @PeakSearch T) (edges : list T) (i j : nat) :
  (i < length edges - 1)%nat -> (j < length edges - 1)%nat ->
  nth i (nth j (kern_raw self edges) []) zero
  = let x := nth i edges zero in
    let sigma := fdiv (fwhm self x) lit_2_355 in
    fsub (gaussian_derivative1 (nth j edges zero) x sigma)
         (gaussian_derivative1 (nth (S j) edges zero) x sigma).
Proof.
  intros Hi Hj. cbv zeta.
  destruct (kern_raw_loop self edges) as [_ H]. cbv zeta in H.
  rewrite (H i j Hi Hj). now apply kernel_entry.
Qed.

#[local] Existing Instance RR.Rops.

Lemma kern_raw_entry_witness :
  nth 0 (nth 1 (kern_raw RR.two_channels [0; 1; 2]%R) []) zero
  = let x := nth 0 [0; 1; 2]%R zero in
    let sigma := fdiv (fwhm RR.two_channels x) lit_2_355 in
    fsub (gaussian_derivative1 (nth 1 [0; 1; 2]%R zero) x sigma)
         (gaussian_derivative1 (nth 2 [0; 1; 2]%R zero) x sigma).
Proof.
  apply (@kern_raw_entry R RR.Rops RR.two_channels [0; 1; 2]%R 0 1); cbn; lia.
Defined.

Lemma kernel_matrix_rows {T : Type} {ops : NumOps T}
    (self : @PeakSearch T) (edges : list T) (kmat : list (list T)) :
  kernel_matrix self edges = Ok kmat ->
  length kmat = (length edges - 1)%nat /\
  Forall (fun row => length row = (length edges - 1)%nat) kmat.
Proof.
  unfold kernel_matrix. destruct edges as [|e es] eqn:He; [discriminate|].
  rewrite <- He. intros H. injection H as <-.
  destruct (kern_raw_loop self edges) as [Hsq _]. cbv zeta in Hsq.
  apply zipped_rows_square.
  - now apply mapped_rows_square.
  - apply rescaled_rows_square; now apply mapped_rows_square.
Qed.

(** X2.  [kernel_matrix] raises ValueError on an empty [edges] and on nothing
    else; what it returns is a square matrix with [len(edges) - 1] rows and
    columns. *)
Theorem kernel_matrix_square {T : Type} {ops : NumOps T}
    (self : @PeakSearch T) (edges : list T) :
  (edges = [] -> kernel_matrix self edges = Raise ValueError) /\
  (edges <> [] ->
   exists kmat, kernel_matrix self edges = Ok kmat /\
     length kmat = (length edges - 1)%nat /\
     Forall (fun row => length row = (length edges - 1)%nat) kmat).
Proof.
  split; [intros ->; reflexivity|].
  intros Hne. destruct edges as [|e es] eqn:He; [contradiction|]. rewrite <- He.
  destruct (kernel_matrix_returns self e es) as [kmat Hk]. rewrite <- He in Hk.
  exists kmat. split; [exact Hk|]. now apply kernel_matrix_rows in Hk.
Qed.
End KernelShape.

(** ** Errors of [convolve], and running [calculate] again *)

Module Outcomes.
Import ArrayFacts Construction Peaks.

Section Generic.
Context {T : Type} {ops : NumOps T}.

Lemma fold_left_pointwise {A B : Type} (f g : A -> B -> A) (l : list B) (a : A) :
  (forall x y, f x y = g x y) -> fold_left f l a = fold_left g l a.
Proof.
  intros H. revert a. induction l as [|y l IH]; intros a; cbn; [reflexivity|].
  now rewrite H, IH.
Qed.

(** The numeric methods read only [ref_x], [ref_fwhm] and [fwhm_at_0]. *)
Lemma fwhm_config (s1 s2 : @PeakSearch T) (x : T) :
  ref_x s1 = ref_x s2 -> ref_fwhm s1 = ref_fwhm s2 -> fwhm_at_0 s1 = fwhm_at_0 s2 ->
  fwhm s1 x = fwhm s2 x.
Proof. intros H1 H2 H3. unfold fwhm. now rewrite H1, H2, H3. Qed.

Lemma convolve_config (s1 s2 : @PeakSearch T) (edges data : list T) :
  ref_x s1 = ref_x s2 -> ref_fwhm s1 = ref_fwhm s2 -> fwhm_at_0 s1 = fwhm_at_0 s2 ->
  convolve s1 edges data = convolve s2 edges data.
Proof.
  intros H1 H2 H3.
  assert (Hk : forall x, kernel s1 x edges = kernel s2 x edges).
  { intros x. unfold kernel. now rewrite (fwhm_config s1 s2 x H1 H2 H3). }
  assert (Hr : kern_raw s1 edges = kern_raw s2 edges).
  { unfold kern_raw. apply fold_left_pointwise. intros m ix. now rewrite Hk. }
  unfold convolve, kernel_matrix. now rewrite Hr.
Qed.

Lemma calculate_config (s1 s2 : @PeakSearch T) :
  ref_x s1 = ref_x s2 -> ref_fwhm s1 = ref_fwhm s2 -> fwhm_at_0 s1 = fwhm_at_0 s2 ->
  spectrum s1 = spectrum s2 -> min_snr s1 = min_snr s2 ->
  calculate s1 = calculate s2.
Proof.
  intros H1 H2 H3 H4 H5. unfold calculate. rewrite H4.
  destruct (channels (spectrum s2)) as [|c cs]; [reflexivity|]. cbn [bind].
  rewrite (convolve_config s1 s2 _ _ H1 H2 H3).
  destruct (convolve s2 _ _) as [[[[[ppb bk] sg] ns] sn]|e]; [|reflexivity].
  cbn [bind]. rewrite H1, H2, H3, H5. do 2 f_equal.
  apply map_ext. intros p. now apply fwhm_config.
Qed.
End Generic.

Lemma convolve_length_mismatch {T : Type} {ops : NumOps T}
    (self : @PeakSearch T) (edges data : list T) :
  length data <> (length edges - 1)%nat ->
  convolve self edges data = Raise ValueError.
Proof.
  intros Hlen. unfold convolve.
  destruct (kernel_matrix self edges) as [kmat|e] eqn:Hk.
  - apply kernel_matrix_length in Hk. cbn [bind]. unfold np_dot.
    replace (Nat.eqb (length kmat) (length data)) with false; [reflexivity|].
    symmetry. apply Nat.eqb_neq. lia.
  - unfold kernel_matrix in Hk. destruct edges; [|discriminate].
    now injection Hk as <-.
Qed.

(** X3.  [convolve] raises ValueError when [edges] is empty or when the
    number of counts is not [len(edges) - 1], and in no other case; what it
    returns are five arrays with one entry per count. *)
Theorem convolve_raises_on_shape_mismatch {T : Type} {ops : NumOps T}
    (self : @PeakSearch T) (edges data : list T) :
  (edges = [] \/ length data <> (length edges - 1)%nat ->
   convolve self edges data = Raise ValueError) /\
  (edges <> [] -> length data = (length edges - 1)%nat ->
   exists ppb bk sg ns sn,
     convolve self edges data = Ok (ppb, bk, sg, ns, sn) /\
     length ppb = length data /\ length bk = length data /\
     length sg = length data /\ length ns = length data /\ length sn = length data).
Proof.
  split.
  - intros [->|Hlen]; [reflexivity|]. now apply convolve_length_mismatch.
  - intros Hne Hlen.
    destruct (convolve_returns self edges data) as [[[[[ppb bk] sg] ns] sn] H].
    { destruct edges; [contradiction|]. cbn in *. lia. }
    exists ppb, bk, sg, ns, sn. split; [exact H|]. now apply convolve_lengths in H.
Qed.

(** X20.  The four ways in which the constructor ends.  It raises the
    exception of the type check exactly on an object that is not a Spectrum,
    IndexError exactly on a Spectrum without channels, ValueError exactly on
    a Spectrum whose counts are not one per channel, and returns in the
    remaining case; the object it returns keeps the spectrum and the four
    configuration values as they were given. *)
Theorem init_outcome {T : Type} {ops : NumOps T}
    (obj : @pyobject T) (rx rf f0 ms : T) :
  match __init__ obj rx rf f0 ms with
  | Raise (Exception _) => ob_type obj <> ClsSpectrum
  | Raise IndexError => ob_type obj = ClsSpectrum /\ channels obj = []
  | Raise ValueError =>
      ob_type obj = ClsSpectrum /\ channels obj <> [] /\
      length (counts obj) <> length (channels obj)
  | Ok ps =>
      ob_type obj = ClsSpectrum /\ channels obj <> [] /\
      length (counts obj) = length (channels obj) /\
      spectrum ps = obj /\ ref_x ps = rx /\ ref_fwhm ps = rf /\
      fwhm_at_0 ps = f0 /\ min_snr ps = ms
  end.
Proof.
  unfold __init__.
  destruct (pyclass_eqb (ob_type obj) ClsSpectrum) eqn:Hty; cbn [negb].
  2:{ intros Heq. apply pyclass_eqb_Spectrum in Heq. congruence. }
  apply pyclass_eqb_Spectrum in Hty.
  set (self := fresh obj rx rf f0 ms).
  destruct (channels obj) as [|c cs] eqn:Hch.
  - unfold calculate. cbn [spectrum self fresh]. rewrite Hch. cbn [bind]. auto.
  - destruct (Nat.eq_dec (length (counts obj)) (length (channels obj))) as [Hlen|Hlen].
    + destruct (calculate_returns self) as [ps Hps].
      { cbn [spectrum self fresh]. now rewrite Hch. }
      { exact Hlen. }
      rewrite Hps.
      destruct (calculate_inv _ Hps)
        as (_ & _ & _ & _ & _ & _ & _ & _ & _ & _ & _ & _ & _ & _ & _ & _
            & E1 & E2 & E3 & E4 & E5).
      rewrite <- Hch. cbn [self fresh min_snr ref_x ref_fwhm fwhm_at_0 spectrum] in *.
      repeat split; try assumption. rewrite Hch. discriminate.
    + unfold calculate. cbn [spectrum self fresh]. rewrite Hch. cbn [bind].
      rewrite convolve_length_mismatch.
      * cbn [bind]. rewrite <- Hch. repeat split; try assumption.
        rewrite Hch. discriminate.
      * rewrite length_app. cbn [length]. rewrite Hch in Hlen. cbn [length] in Hlen. lia.
Qed.

(** X4.  What [calculate] stores depends on the configuration and the
    spectrum only.  Run on its own result it returns that result again; run
    after [min_snr] alone was changed it stores the same five arrays, and the
    peaks of the same clipped SNR above the new threshold. *)
Theorem calculate_again {T : Type} {ops : NumOps T} (self ps : @PeakSearch T) :
  calculate self = Ok ps ->
  calculate ps = Ok ps /\
  forall self',
    ref_x self' = ref_x self -> ref_fwhm self' = ref_fwhm self ->
    fwhm_at_0 self' = fwhm_at_0 self -> spectrum self' = spectrum self ->
    exists ps',
      calculate self' = Ok ps' /\
      peak_plus_bkg ps' = peak_plus_bkg ps /\ bkg ps' = bkg ps /\
      signal ps' = signal ps /\ noise ps' = noise ps /\ snr ps' = snr ps /\
      peaks_idx ps' = find_peaks (snr ps) (min_snr self').
Proof.
  intros H.
  destruct (calculate_inv _ H)
    as (c & cs & ppb & bk & sg & ns & sn & Hch & Hc & E1 & E2 & E3 & E4 & E5 & E6
        & E7 & E8 & E9 & E10 & E11 & E12).
  split.
  - rewrite <- H. now apply calculate_config.
  - intros self' H1 H2 H3 H4.
    unfold calculate. rewrite H4, Hch. cbn [bind].
    rewrite Hch in Hc.
    rewrite (convolve_config self' self _ _ H1 H2 H3), Hc. cbn [bind].
    eexists. split; [reflexivity|]. cbn.
    rewrite E1, E2, E3, E4, E5. repeat split; reflexivity.
Qed.

#[local] Existing Instance RR.Rops.

Lemma calculate_again_witness :
  exists ps : @PeakSearch R,
    calculate RR.spike = Ok ps /\ calculate ps = Ok ps /\
    forall self',
      ref_x self' = ref_x RR.spike -> ref_fwhm self' = ref_fwhm RR.spike ->
      fwhm_at_0 self' = fwhm_at_0 RR.spike -> spectrum self' = spectrum RR.spike ->
      exists ps',
        calculate self' = Ok ps' /\
        peak_plus_bkg ps' = peak_plus_bkg ps /\ bkg ps' = bkg ps /\
        signal ps' = signal ps /\ noise ps' = noise ps /\ snr ps' = snr ps /\
        peaks_idx ps' = find_peaks (snr ps) (min_snr self').
Proof.
  destruct (@calculate_returns R RR.Rops RR.spike) as [ps H];
    [discriminate|reflexivity|].
  exists ps. split; [exact H|].
  exact (@calculate_again R RR.Rops RR.spike ps H).
Defined.
End Outcomes.

(** ** The order and the range of the reported peaks *)

From Stdlib Require Import Sorted.

Module PeakOrder.
Import ArrayFacts Construction Peaks.

Section Generic.
Context {T : Type} {ops : NumOps T}.

Lemma local_maxima_loop_sorted (x : list T) (i_max : nat) :
  forall fuel i, StronglySorted lt (local_maxima_loop fuel x i_max i).
Proof.
  induction fuel as [|fuel IH]; intros i; cbn [local_maxima_loop]; [constructor|].
  destruct (Nat.ltb i i_max) eqn:Hlt; [|constructor].
  apply Nat.ltb_lt in Hlt.
  destruct (fltb (nth (i - 1) x zero) (nth i x zero)); [|apply IH].
  pose proof (look_ahead_bounds x i (length x) (i_ahead := S i) Hlt) as Hb.
  set (ia := look_ahead (length x) x i_max i (S i)) in *.
  destruct (fltb (nth ia x zero) (nth i x zero)); [|apply IH].
  constructor; [apply IH|].
  apply Forall_forall. intros p Hp. apply local_maxima_loop_range in Hp.
  pose proof (Nat.div_mod_eq (i + (ia - 1)) 2) as Hd.
  pose proof (Nat.mod_upper_bound (i + (ia - 1)) 2) as Hm. lia.
Qed.

Lemma filter_sorted (f : nat -> bool) (l : list nat) :
  StronglySorted lt l -> StronglySorted lt (filter f l).
Proof.
  induction 1 as [|a l Hl IH Ha]; cbn [filter]; [constructor|].
  destruct (f a); [|exact IH].
  constructor; [exact IH|].
  apply Forall_forall. intros p Hp. apply filter_In in Hp.
  rewrite Forall_forall in Ha. now apply Ha.
Qed.

Lemma find_peaks_sorted (x : list T) (h : T) : StronglySorted lt (find_peaks x h).
Proof. apply filter_sorted, local_maxima_loop_sorted. Qed.
End Generic.

(** X5.  The peak indices that [calculate] stores are in strictly ascending
    order and never the first or the last channel, so a spectrum of fewer
    than three channels has no peak; [fwhm_guess] has one entry per peak. *)
Theorem calculate_peaks_ascending_interior {T : Type} {ops : NumOps T}
    (self ps : @PeakSearch T) :
  calculate self = Ok ps ->
  StronglySorted lt (peaks_idx ps) /\
  (forall p, In p (peaks_idx ps) ->
     (1 <= p)%nat /\ (p + 1 < length (counts (spectrum self)))%nat) /\
  ((length (counts (spectrum self)) < 3)%nat -> peaks_idx ps = []) /\
  length (fwhm_guess ps) = length (peaks_idx ps).
Proof.
  intros H.
  destruct (calculate_inv _ H)
    as (c & cs & ppb & bk & sg & ns & sn & _ & Hc & _ & _ & _ & _ & Hsnr & Hpk & Hfw & _).
  apply convolve_lengths in Hc. destruct Hc as (_ & _ & _ & _ & Hsn).
  assert (Hlen : length (snr ps) = length (counts (spectrum self)))
    by (rewrite Hsnr, length_map; exact Hsn).
  assert (Hrange : forall p, In p (peaks_idx ps) ->
            (1 <= p)%nat /\ (p + 1 < length (counts (spectrum self)))%nat).
  { intros p Hp. rewrite Hpk in Hp. apply find_peaks_spec in Hp.
    destruct Hp as [_ Hr]. rewrite Hlen in Hr. lia. }
  repeat split.
  - rewrite Hpk. apply find_peaks_sorted.
  - now apply Hrange.
  - now apply Hrange.
  - intros Hshort. destruct (peaks_idx ps) as [|p l] eqn:E; [reflexivity|].
    destruct (Hrange p (or_introl eq_refl)). lia.
  - rewrite Hfw. apply length_map.
Qed.

#[local] Existing Instance RR.Rops.

Lemma calculate_peaks_ascending_interior_witness :
  exists ps : @PeakSearch R,
    calculate RR.spike = Ok ps /\
    StronglySorted lt (peaks_idx ps) /\
    (forall p, In p (peaks_idx ps) ->
       (1 <= p)%nat /\ (p + 1 < length (counts (spectrum RR.spike)))%nat) /\
    ((length (counts (spectrum RR.spike)) < 3)%nat -> peaks_idx ps = []) /\
    length (fwhm_guess ps) = length (peaks_idx ps).
Proof.
  destruct (@calculate_returns R RR.Rops RR.spike) as [ps H];
    [discriminate|reflexivity|].
  exists ps. split; [exact H|].
  exact (@calculate_peaks_ascending_interior R RR.Rops RR.spike ps H).
Defined.
End PeakOrder.

(** ** The Gaussian and its derivative, over R *)

Module Gauss.
Import RR Exact.
Local Open Scope R_scope.
#[local] Existing Instance Rops.

Lemma gaussian1_eq (x mean sigma : R) :
  gaussian1 x mean sigma = exp (- ((x - mean) / sigma * ((x - mean) / sigma)) / 2).
Proof. reflexivity. Qed.

Lemma gaussian_derivative1_eq (x mean sigma : R) :
  gaussian_derivative1 x mean sigma = -1 * (x - mean) * gaussian1 x mean sigma.
Proof. reflexivity. Qed.

Lemma gaussian1_even (mean sigma d : R) :
  gaussian1 (mean + d) mean sigma = gaussian1 (mean - d) mean sigma.
Proof. rewrite !gaussian1_eq. do 2 f_equal. unfold Rdiv. ring. Qed.

(** X6.  For a width [sigma] other than zero [gaussian] is a bell of
    height 1: every value lies in (0, 1], the value at the mean is 1, and
    the values at equal distances on both sides of the mean are equal.
    (At [sigma = 0] the code divides by zero and returns NaN at the mean.) *)
Theorem gaussian_bell (xs : list R) (mean sigma d : R) :
  sigma <> 0 ->
  Forall (fun v => 0 < v <= 1) (gaussian xs mean sigma) /\
  gaussian [mean] mean sigma = [1] /\
  gaussian [mean + d] mean sigma = gaussian [mean - d] mean sigma.
Proof.
  intros Hs. repeat split.
  - unfold gaussian. apply Forall_map, Forall_forall. intros x _.
    rewrite gaussian1_eq. split; [apply exp_pos|].
    set (z := (x - mean) / sigma).
    assert (Hz : - (z * z) / 2 <= 0) by (pose proof (Rle_0_sqr z) as H; unfold Rsqr in H; lra).
    destruct Hz as [Hz|Hz].
    + left. rewrite <- exp_0. now apply exp_increasing.
    + rewrite Hz, exp_0. lra.
  - unfold gaussian. cbn [map]. rewrite gaussian1_eq.
    replace (- ((mean - mean) / sigma * ((mean - mean) / sigma)) / 2) with 0
      by (field; exact Hs).
    now rewrite exp_0.
  - unfold gaussian. cbn [map]. now rewrite gaussian1_even.
Qed.

Lemma gaussian_bell_witness :
  Forall (fun v => 0 < v <= 1) (gaussian [0; 1; 2; 5] 1 2) /\
  gaussian [1] 1 2 = [1] /\
  gaussian [1 + 3] 1 2 = gaussian [1 - 3] 1 2.
Proof.
  apply (@gaussian_bell [0; 1; 2; 5] 1 2 3). lra.
Defined.

(** The exponent of the Gaussian and its derivative. *)
Lemma exponent_derivative (mean sigma x : R) :
  derivable_pt_lim (fun t => - ((t - mean) / sigma * ((t - mean) / sigma)) / 2) x
                   (- ((x - mean) * / sigma * / sigma)).
Proof.
  assert (H1 : derivable_pt_lim (fun t => (t - mean) / sigma) x (/ sigma)).
  { replace (/ sigma) with ((1 - 0) * / sigma + (x - mean) * 0) by ring.
    apply (derivable_pt_lim_mult (fun t => t - mean) (fun _ => / sigma)).
    - apply (derivable_pt_lim_minus id (fun _ => mean)).
      + apply derivable_pt_lim_id.
      + apply derivable_pt_lim_const.
    - apply derivable_pt_lim_const. }
  pose proof (derivable_pt_lim_mult _ _ _ _ _ H1 H1) as H2.
  pose proof (derivable_pt_lim_opp _ _ _ H2) as H3.
  pose proof (derivable_pt_lim_scal _ (/ 2) _ _ H3) as H4.
  replace (- ((x - mean) * / sigma * / sigma))
    with (/ 2 * - (/ sigma * ((x - mean) / sigma) + (x - mean) / sigma * / sigma))
    by (unfold Rdiv; generalize (/ sigma); intros s; field).
  unfold derivable_pt_lim in *. intros eps Heps.
  destruct (H4 eps Heps) as [delta Hd]. exists delta. intros h Hh Hlt.
  specialize (Hd h Hh Hlt). unfold mult_real_fct, opp_fct, mult_fct in Hd.
  replace (- ((x + h - mean) / sigma * ((x + h - mean) / sigma)) / 2)
    with (/ 2 * - ((x + h - mean) / sigma * ((x + h - mean) / sigma))) by (unfold Rdiv; ring).
  replace (- ((x - mean) / sigma * ((x - mean) / sigma)) / 2)
    with (/ 2 * - ((x - mean) / sigma * ((x - mean) / sigma))) by (unfold Rdiv; ring).
  exact Hd.
Qed.

(** X7.  [gaussian_derivative] vanishes at the mean and is odd about it;
    it is the derivative of [gaussian] multiplied by [sigma ** 2], not the
    derivative itself. *)
Theorem gaussian_derivative_is_scaled_derivative (x mean sigma d : R) :
  sigma <> 0 ->
  derivable_pt_lim (fun t => gaussian1 t mean sigma) x
                   (gaussian_derivative1 x mean sigma / (sigma * sigma)) /\
  gaussian_derivative [mean] mean sigma = [0] /\
  gaussian_derivative [mean + d] mean sigma
  = map Ropp (gaussian_derivative [mean - d] mean sigma).
Proof.
  intros Hs. repeat split.
  - pose proof (exponent_derivative mean sigma x) as Hu.
    pose proof (derivable_pt_lim_exp
                  (- ((x - mean) / sigma * ((x - mean) / sigma)) / 2)) as He.
    pose proof (derivable_pt_lim_comp _ _ _ _ _ Hu He) as Hc.
    rewrite gaussian_derivative1_eq, gaussian1_eq.
    replace (-1 * (x - mean) * exp (- ((x - mean) / sigma * ((x - mean) / sigma)) / 2)
             / (sigma * sigma))
      with (exp (- ((x - mean) / sigma * ((x - mean) / sigma)) / 2)
            * - ((x - mean) * / sigma * / sigma))
      by (field; exact Hs).
    exact Hc.
  - unfold gaussian_derivative. cbn [map]. rewrite gaussian_derivative1_eq.
    f_equal. ring.
  - unfold gaussian_derivative. cbn [map].
    rewrite !gaussian_derivative1_eq, gaussian1_even.
    f_equal. ring.
Qed.

Lemma gaussian_derivative_is_scaled_derivative_witness :
  derivable_pt_lim (fun t => gaussian1 t 3 1) 2
                   (gaussian_derivative1 2 3 1 / (1 * 1)) /\
  gaussian_derivative [3] 3 1 = [0] /\
  gaussian_derivative [3 + 1] 3 1 = map Ropp (gaussian_derivative [3 - 1] 3 1).
Proof.
  apply (@gaussian_derivative_is_scaled_derivative 2 3 1 1). lra.
Defined.
End Gauss.

(** ** The width model and the kernel, over R *)

Module KernelFacts.
Import RR Totals ArrayFacts Exact KernelShape.
Local Open Scope R_scope.
#[local] Existing Instance Rops.

(** X8.  With [ref_x > 0] and [ref_fwhm >= 0] the width [fwhm] grows with
    the channel and is never below [fwhm_at_0]; at [ref_x] it is
    [ref_fwhm + fwhm_at_0] (so it equals [ref_fwhm] there only when
    [fwhm_at_0] is 0). *)
Theorem fwhm_grows (self : @PeakSearch R) (x y : R) :
  0 < ref_x self -> 0 <= ref_fwhm self -> 0 <= x <= y ->
  fwhm self x <= fwhm self y /\
  fwhm_at_0 self <= fwhm self x /\
  fwhm self (ref_x self) = ref_fwhm self + fwhm_at_0 self.
Proof.
  intros Hx1 Hf1 [Hx Hxy]. unfold fwhm. real_ops.
  assert (Hs : 0 < sqrt (ref_x self)) by now apply sqrt_lt_R0.
  assert (Hk : 0 <= ref_fwhm self / sqrt (ref_x self)).
  { apply Rmult_le_pos; [exact Hf1|]. left. now apply Rinv_0_lt_compat. }
  pose proof (sqrt_le_1 x y Hx (Rle_trans _ _ _ Hx Hxy) Hxy) as Hsq.
  pose proof (sqrt_pos x) as Hpx.
  repeat split.
  - apply Rplus_le_compat_r. now apply Rmult_le_compat_l.
  - pose proof (Rmult_le_pos _ _ Hk Hpx). lra.
  - field. lra.
Qed.

Lemma fwhm_grows_witness :
  fwhm two_channels 1 <= fwhm two_channels 4 /\
  fwhm_at_0 two_channels <= fwhm two_channels 1 /\
  fwhm two_channels (ref_x two_channels)
  = ref_fwhm two_channels + fwhm_at_0 two_channels.
Proof.
  apply (@fwhm_grows two_channels 1 4); cbn; lra.
Defined.

(** *** The sum of a kernel *)

Lemma telescope (f : R -> R) (l : list R) :
  l <> [] ->
  Rsum (zip_with Rminus (map f (removelast l)) (map f (tl l)))
  = f (hd 0 l) - f (last l 0).
Proof.
  induction l as [|a [|b l] IH]; intros Hne; [contradiction| |].
  - cbn. lra.
  - change (removelast (a :: b :: l)) with (a :: removelast (b :: l)).
    change (last (a :: b :: l) 0) with (last (b :: l) 0).
    cbn [tl map hd zip_with]. unfold Rsum in *. cbn [fold_right].
    specialize (IH ltac:(discriminate)). cbn [tl hd] in IH. rewrite IH. lra.
Qed.

(** X9.  The entries of a kernel telescope: their sum is the value of
    [gaussian_derivative] at the first edge minus its value at the last
    edge. *)
Theorem kernel_sum_telescopes (self : @PeakSearch R) (x : R) (edges : list R) :
  edges <> [] ->
  Rsum (kernel self x edges)
  = gaussian_derivative1 (hd 0 edges) x (fwhm self x / 2.355)
    - gaussian_derivative1 (last edges 0) x (fwhm self x / 2.355).
Proof.
  intros Hne. unfold kernel, gaussian_derivative. real_ops.
  now apply (telescope (fun xi => gaussian_derivative1 xi x (fwhm self x / 2.355))).
Qed.

Lemma kernel_sum_telescopes_witness :
  Rsum (kernel two_channels 0 [0; 1; 2])
  = gaussian_derivative1 0 0 (fwhm two_channels 0 / 2.355)
    - gaussian_derivative1 2 0 (fwhm two_channels 0 / 2.355).
Proof.
  apply (@kernel_sum_telescopes two_channels 0 [0; 1; 2]). discriminate.
Defined.

(** *** What the rescale does to an entry *)

Lemma nth_col (i j : nat) (m : list (list R)) :
  (j < length m)%nat -> nth j (col i m) 0 = nth i (nth j m []) 0.
Proof.
  intros Hj. unfold col.
  rewrite (nth_indep _ 0 (nth i [] 0)) by (now rewrite length_map).
  apply (map_nth (fun row => nth i row 0)).
Qed.

(** *** An example where every column has a negative lobe *)

Lemma Rsum_ge_entry (l : list R) (j : nat) :
  Forall (fun v => 0 <= v) l -> nth j l 0 <= Rsum l.
Proof.
  intros Hl. revert j. unfold Rsum.
  induction Hl as [|x l Hx Hl IH]; intros [|j]; cbn [nth fold_right]; try lra.
  - pose proof (Rsum_nonneg Hl) as H. unfold Rsum in H. lra.
  - specialize (IH j). lra.
Qed.

Lemma constant_width_entry (i j : nat) :
  (i < 3)%nat -> (j < 3)%nat ->
  nth i (nth j (kern_raw constant_width [0; 1; 2; 3]) []) 0
  = - (nth j [0; 1; 2; 3] 0 - nth i [0; 1; 2; 3] 0)
      * exp (- ((nth j [0; 1; 2; 3] 0 - nth i [0; 1; 2; 3] 0)
                * (nth j [0; 1; 2; 3] 0 - nth i [0; 1; 2; 3] 0)) / 2)
    + (nth (S j) [0; 1; 2; 3] 0 - nth i [0; 1; 2; 3] 0)
      * exp (- ((nth (S j) [0; 1; 2; 3] 0 - nth i [0; 1; 2; 3] 0)
                * (nth (S j) [0; 1; 2; 3] 0 - nth i [0; 1; 2; 3] 0)) / 2).
Proof.
  intros Hi Hj.
  pose proof (@kern_raw_loop R Rops constant_width [0; 1; 2; 3]) as [_ H].
  cbv zeta in H. unfold zero in H. real_ops.
  rewrite (H i j) by (cbn; lia).
  pose proof (@kernel_entry R Rops constant_width (nth i [0; 1; 2; 3] 0) [0; 1; 2; 3] j) as He.
  unfold zero in He. real_ops. rewrite He by (cbn; lia).
  unfold gaussian_derivative1, gaussian1, fwhm.
  cbn [constant_width fresh ref_x ref_fwhm fwhm_at_0]. real_ops.
  replace ((0 / sqrt 1 * sqrt (nth i [0; 1; 2; 3] 0) + 2.355) / 2.355) with 1
    by (unfold Rdiv at 2; rewrite !Rmult_0_l; lra).
  set (a := nth j [0; 1; 2; 3] 0 - nth i [0; 1; 2; 3] 0).
  set (b := nth (S j) [0; 1; 2; 3] 0 - nth i [0; 1; 2; 3] 0).
  replace (- (a / 1 * (a / 1)) / 2) with (- (a * a) / 2) by (unfold Rdiv; rewrite Rinv_1; ring).
  replace (- (b / 1 * (b / 1)) / 2) with (- (b * b) / 2) by (unfold Rdiv; rewrite Rinv_1; ring).
  ring.
Qed.

Lemma constant_width_negative_lobes (i : nat) :
  (i < 3)%nat ->
  nth i (sum_axis0 3 (clip_neg (kern_raw constant_width [0; 1; 2; 3]))) 0 <> 0.
Proof.
  intros Hi.
  destruct (@kernel_matrix_col constant_width [0; 1; 2; 3] _ i eq_refl) as (_ & HN & _);
    [cbn; lia|].
  cbn [length Nat.sub] in HN. rewrite HN.
  set (c := col i (kern_raw constant_width [0; 1; 2; 3])).
  assert (Hnn : Forall (fun v => 0 <= v) (map neg_part c)).
  { apply Forall_map, Forall_forall. intros v _. apply neg_part_nonneg. }
  pose proof exp_gap as Hg.
  (* the row that holds a negative entry of column i *)
  set (j := match i with 0%nat => 1%nat | 1%nat => 2%nat | _ => 0%nat end).
  assert (Hj : (j < 3)%nat) by (unfold j; destruct i as [|[|[|i]]]; lia).
  pose proof (Rsum_ge_entry j Hnn) as Hge.
  assert (Hlen : length c = 3%nat).
  { unfold c. rewrite col_length. apply kern_raw_length. }
  rewrite (@nth_map_in neg_part c j) in Hge by lia.
  assert (Hneg : nth j c 0 < 0).
  { unfold c.
    rewrite (@nth_col i j (kern_raw constant_width [0; 1; 2; 3]))
      by (rewrite kern_raw_length; cbn; lia).
    rewrite (constant_width_entry Hi Hj).
    unfold j. destruct i as [|[|[|i]]]; try lia; cbn [nth].
    - replace (- ((1 - 0) * (1 - 0)) / 2) with (- (1 / 2)) by lra.
      replace (- ((2 - 0) * (2 - 0)) / 2) with (-2) by lra. lra.
    - replace (- ((2 - 1) * (2 - 1)) / 2) with (- (1 / 2)) by lra.
      replace (- ((3 - 1) * (3 - 1)) / 2) with (-2) by lra. lra.
    - replace (- ((0 - 2) * (0 - 2)) / 2) with (-2) by lra.
      replace (- ((1 - 2) * (1 - 2)) / 2) with (- (1 / 2)) by lra. lra. }
  rewrite neg_part_eq, Rmin_left in Hge by lra. lra.
Qed.

(** X10.  In a column [i] of the kernel that has a negative lobe (its sum
    of [kern_neg] is not zero), [kernel_matrix] keeps every positive entry
    of the raw kernel and multiplies every other entry by the ratio of the
    column, [kern_pos.sum(axis=0)[i] / kern_neg.sum(axis=0)[i]]. *)
Theorem kernel_matrix_rescales_negative_lobe
    (self : @PeakSearch R) (edges : list R) (kmat : list (list R)) (i j : nat) :
  kernel_matrix self edges = Ok kmat ->
  (i < length edges - 1)%nat -> (j < length edges - 1)%nat ->
  nth i (sum_axis0 (length edges - 1) (clip_neg (kern_raw self edges))) 0 <> 0 ->
  let k := nth i (nth j (kern_raw self edges) []) 0 in
  let ratio := nth i (sum_axis0 (length edges - 1) (clip_pos (kern_raw self edges))) 0
               / nth i (sum_axis0 (length edges - 1) (clip_neg (kern_raw self edges))) 0 in
  (0 < k -> nth i (nth j kmat []) 0 = k) /\
  (k <= 0 -> nth i (nth j kmat []) 0 = k * ratio).
Proof.
  intros Hk Hi Hj _. cbv zeta.
  destruct (@kernel_matrix_col self edges kmat i Hk Hi) as (HP & HN & Hcol).
  pose proof Hk as Hlen. apply kernel_matrix_length in Hlen.
  pose proof (kern_raw_length self edges) as HlenK.
  rewrite HP, HN.
  rewrite <- (@nth_col i j kmat) by lia.
  rewrite <- (@nth_col i j (kern_raw self edges)) by lia.
  rewrite Hcol.
  set (r := Rsum (map pos_part (col i (kern_raw self edges)))
            / Rsum (map neg_part (col i (kern_raw self edges)))).
  rewrite (@nth_map_in (fun k => pos_part k - neg_part k * r)
             (col i (kern_raw self edges)) j) by (rewrite col_length; lia).
  set (k := nth j (col i (kern_raw self edges)) 0).
  rewrite pos_part_eq, neg_part_eq. unfold Rmax, Rmin.
  split; intros Hsign; destruct (Rle_dec k 0); lra.
Qed.

Lemma kernel_matrix_rescales_negative_lobe_witness :
  exists kmat,
    kernel_matrix constant_width [0; 1; 2; 3] = Ok kmat /\
    let k := nth 1 (nth 2 (kern_raw constant_width [0; 1; 2; 3]) []) 0 in
    let ratio :=
      nth 1 (sum_axis0 (4 - 1) (clip_pos (kern_raw constant_width [0; 1; 2; 3]))) 0
      / nth 1 (sum_axis0 (4 - 1) (clip_neg (kern_raw constant_width [0; 1; 2; 3]))) 0 in
    (0 < k -> nth 1 (nth 2 kmat []) 0 = k) /\
    (k <= 0 -> nth 1 (nth 2 kmat []) 0 = k * ratio).
Proof.
  eexists. split; [reflexivity|].
  apply (@kernel_matrix_rescales_negative_lobe constant_width [0; 1; 2; 3]);
    [reflexivity | cbn; lia | cbn; lia | apply constant_width_negative_lobes; lia].
Defined.

(** X11.  Where the edges increase and column [i] of the kernel has a
    negative lobe (its sum of [kern_neg] is not zero), the kernel is
    positive on its own channel: the diagonal entry [(i, i)] of the kernel
    matrix is [(edges[i+1] - edges[i]) * gaussian(edges[i+1])] for the
    kernel centred at [edges[i]], which is positive, and the rescale leaves
    it as it is. *)
Theorem kernel_matrix_diagonal_positive
    (self : @PeakSearch R) (edges : list R) (kmat : list (list R)) (i : nat) :
  kernel_matrix self edges = Ok kmat ->
  (i < length edges - 1)%nat ->
  nth i edges 0 < nth (S i) edges 0 ->
  nth i (sum_axis0 (length edges - 1) (clip_neg (kern_raw self edges))) 0 <> 0 ->
  nth i (nth i kmat []) 0
  = (nth (S i) edges 0 - nth i edges 0)
    * gaussian1 (nth (S i) edges 0) (nth i edges 0) (fwhm self (nth i edges 0) / 2.355)
  /\ 0 < nth i (nth i kmat []) 0.
Proof.
  intros Hk Hi Hinc _.
  assert (Hraw : nth i (nth i (kern_raw self edges) []) 0
                 = (nth (S i) edges 0 - nth i edges 0)
                   * gaussian1 (nth (S i) edges 0) (nth i edges 0)
                               (fwhm self (nth i edges 0) / 2.355)).
  { pose proof (@kern_raw_loop R Rops self edges) as [_ H]. cbv zeta in H.
    unfold zero in H. real_ops. rewrite (H i i Hi Hi).
    pose proof (@kernel_entry R Rops self (nth i edges 0) edges i Hi) as He.
    unfold zero in He. real_ops. rewrite He.
    unfold gaussian_derivative1. real_ops. ring. }
  assert (Hpos : 0 < nth i (nth i (kern_raw self edges) []) 0).
  { rewrite Hraw. apply Rmult_lt_0_compat; [lra|]. apply exp_pos. }
  pose proof (@kernel_matrix_col self edges kmat i Hk Hi) as (_ & _ & Hcol).
  pose proof Hk as Hlen. apply kernel_matrix_length in Hlen.
  pose proof (kern_raw_length self edges) as HlenK.
  assert (Heq : nth i (nth i kmat []) 0 = nth i (nth i (kern_raw self edges) []) 0).
  { rewrite <- (@nth_col i i kmat) by lia.
    rewrite <- (@nth_col i i (kern_raw self edges)) by lia.
    rewrite Hcol.
    set (r := Rsum (map pos_part (col i (kern_raw self edges)))
              / Rsum (map neg_part (col i (kern_raw self edges)))).
    rewrite (@nth_map_in (fun k => pos_part k - neg_part k * r)
               (col i (kern_raw self edges)) i) by (rewrite col_length; lia).
    rewrite <- (@nth_col i i (kern_raw self edges)) in Hpos by lia.
    set (k := nth i (col i (kern_raw self edges)) 0) in *.
    rewrite pos_part_eq, neg_part_eq. unfold Rmax, Rmin.
    destruct (Rle_dec k 0); lra. }
  rewrite Heq. split; [exact Hraw|exact Hpos].
Qed.

Lemma kernel_matrix_diagonal_positive_witness :
  exists kmat,
    kernel_matrix constant_width [0; 1; 2; 3] = Ok kmat /\
    nth 1 (nth 1 kmat []) 0
    = (nth 2 [0; 1; 2; 3] 0 - nth 1 [0; 1; 2; 3] 0)
      * gaussian1 (nth 2 [0; 1; 2; 3] 0) (nth 1 [0; 1; 2; 3] 0)
                  (fwhm constant_width (nth 1 [0; 1; 2; 3] 0) / 2.355)
    /\ 0 < nth 1 (nth 1 kmat []) 0.
Proof.
  eexists. split; [reflexivity|].
  apply (@kernel_matrix_diagonal_positive constant_width [0; 1; 2; 3] _ 1);
    [reflexivity | cbn; lia | cbn; lra | apply constant_width_negative_lobes; lia].
Defined.
End KernelFacts.

(** ** The arrays of [convolve], over R *)

Module Decomposition.
Import RR Totals ArrayFacts Exact KernelShape.
Local Open Scope R_scope.
#[local] Existing Instance Rops.

Lemma dot_row_Rsum (row data : list R) :
  dot_row row data = Rsum (zip_with Rmult row data).
Proof. unfold dot_row, zero. real_ops. rewrite fold_left_Rplus. lra. Qed.

Lemma dot_row_nonneg (row data : list R) :
  Forall (fun v => 0 <= v) row -> Forall (fun v => 0 <= v) data ->
  0 <= dot_row row data.
Proof.
  intros Hr Hd. rewrite dot_row_Rsum. apply Rsum_nonneg.
  apply (Forall_zip_with (P := fun v => 0 <= v) (Q := fun v => 0 <= v)); auto.
  intros a b. apply Rmult_le_pos.
Qed.

(** X12.  When every column of the kernel has a negative lobe (no column
    sum of [kern_neg] is zero) and no count is negative, [convolve] returns
    [peak_plus_bkg], [bkg] and [noise] without a negative entry. *)
Theorem convolve_components_nonnegative
    (self : @PeakSearch R) (edges data : list R) ppb bk sg ns sn :
  (forall i, (i < length edges - 1)%nat ->
     nth i (sum_axis0 (length edges - 1) (clip_neg (kern_raw self edges))) 0 <> 0) ->
  Forall (fun d => 0 <= d) data ->
  convolve self edges data = Ok (ppb, bk, sg, ns, sn) ->
  Forall (fun v => 0 <= v) ppb /\ Forall (fun v => 0 <= v) bk /\
  Forall (fun v => 0 <= v) ns.
Proof.
  intros _ Hd H. apply convolve_inv in H. destruct H as (kmat & _ & _ & H).
  cbv zeta in H. injection H as -> -> _ -> _.
  repeat split.
  - unfold clip_pos. rewrite map_map. apply Forall_map, Forall_forall. intros row _.
    apply dot_row_nonneg; [|exact Hd].
    apply Forall_map, Forall_forall. intros v _. apply pos_part_nonneg.
  - unfold clip_neg. rewrite map_map. apply Forall_map, Forall_forall. intros row _.
    apply dot_row_nonneg; [|exact Hd].
    apply Forall_map, Forall_forall. intros v _. apply neg_part_nonneg.
  - apply Forall_map, Forall_forall. intros v _. real_ops. apply sqrt_pos.
Qed.

Lemma convolve_components_nonnegative_witness :
  exists ppb bk sg ns sn,
    convolve constant_width [0; 1; 2; 3] [1; 5; 2] = Ok (ppb, bk, sg, ns, sn) /\
    Forall (fun v => 0 <= v) ppb /\ Forall (fun v => 0 <= v) bk /\
    Forall (fun v => 0 <= v) ns.
Proof.
  destruct (convolve_returns constant_width [0; 1; 2; 3] [1; 5; 2] eq_refl)
    as [[[[[ppb bk] sg] ns] sn] H].
  exists ppb, bk, sg, ns, sn. split; [exact H|].
  apply (@convolve_components_nonnegative constant_width [0; 1; 2; 3] [1; 5; 2]
           ppb bk sg ns sn);
    [|repeat constructor; lra|exact H].
  intros i Hi. apply KernelFacts.constant_width_negative_lobes. exact Hi.
Defined.

(** *** Summing the signal over the channels *)

Lemma rows_total_length (n : nat) (m : list (list R)) :
  rows_of_length n m -> length (rows_total n m) = n.
Proof.
  unfold rows_of_length, rows_total. induction 1 as [|r m Hr Hm IH]; cbn [fold_right].
  - apply repeat_length.
  - rewrite zip_with_length. lia.
Qed.

Lemma rows_total_nth (n i : nat) (m : list (list R)) :
  rows_of_length n m -> (i < n)%nat -> nth i (rows_total n m) 0 = Rsum (col i m).
Proof.
  intros Hm Hi. induction m as [|r m IH].
  - unfold rows_total, col, Rsum. cbn. apply nth_repeat.
  - unfold rows_of_length in Hm. apply Forall_cons_iff in Hm. destruct Hm as [Hr Hm2].
    specialize (IH Hm2).
    change (rows_total n (r :: m)) with (zip_with Rplus r (rows_total n m)).
    rewrite (zip_with_nth Rplus r (rows_total n m) 0 0 0)
      by (rewrite ?(rows_total_length Hm2); lia).
    rewrite IH. reflexivity.
Qed.

Lemma Rsum_zip_add (a b data : list R) :
  length a = length b ->
  Rsum (zip_with Rmult (zip_with Rplus a b) data)
  = Rsum (zip_with Rmult a data) + Rsum (zip_with Rmult b data).
Proof.
  unfold Rsum. revert b data.
  induction a as [|x a IH]; intros [|y b] [|d data] Hl; cbn in *; try lra; try discriminate.
  rewrite IH by lia. lra.
Qed.

Lemma Rsum_dot_rows (n : nat) (m : list (list R)) (data : list R) :
  rows_of_length n m ->
  Rsum (map (fun row => dot_row row data) m) = dot_row (rows_total n m) data.
Proof.
  intros Hm. induction m as [|r m IH].
  - rewrite dot_row_Rsum. unfold rows_total, Rsum. cbn [map fold_right].
    clear Hm. generalize data. induction n as [|n IHn]; intros [|d ds]; cbn; try lra.
    rewrite <- IHn. lra.
  - unfold rows_of_length in Hm. apply Forall_cons_iff in Hm. destruct Hm as [Hr Hm2].
    specialize (IH Hm2).
    change (rows_total n (r :: m)) with (zip_with Rplus r (rows_total n m)).
    rewrite dot_row_Rsum, Rsum_zip_add by (now rewrite (rows_total_length Hm2)).
    rewrite <- !dot_row_Rsum, <- IH. reflexivity.
Qed.

Lemma dot_row_zero_vector (w data : list R) :
  (forall i, (i < length w)%nat -> nth i w 0 = 0) -> dot_row w data = 0.
Proof.
  rewrite dot_row_Rsum. unfold Rsum. revert data.
  induction w as [|x w IH]; intros [|d data] H; cbn; try lra.
  rewrite IH.
  - pose proof (H 0%nat ltac:(cbn; lia)) as H0. cbn in H0. subst x. lra.
  - intros i Hi. apply (H (S i)). cbn. lia.
Qed.

Lemma rescaled_column_sum (c : list R) :
  Rsum (map neg_part c) <> 0 ->
  Rsum (map (fun k => pos_part k - neg_part k
                      * (Rsum (map pos_part c) / Rsum (map neg_part c))) c) = 0.
Proof.
  intros HN.
  set (r := Rsum (map pos_part c) / Rsum (map neg_part c)).
  assert (H : forall l, Rsum (map (fun k => pos_part k - neg_part k * r) l)
                        = Rsum (map pos_part l) - Rsum (map neg_part l) * r).
  { unfold Rsum. induction l as [|k l IH]; cbn [map fold_right]; [lra|]. rewrite IH. lra. }
  rewrite H. unfold r. field. exact HN.
Qed.

Lemma Rsum_map_minus {A : Type} (f g : A -> R) (l : list A) :
  Rsum (map (fun x => f x - g x) l) = Rsum (map f l) - Rsum (map g l).
Proof.
  unfold Rsum. induction l as [|x l IH]; cbn [map fold_right]; [lra|]. rewrite IH. lra.
Qed.

(** X13.  When every column of the kernel has a negative lobe (no column
    sum of [kern_neg] is zero), the kernel matrix conserves the counts: the
    entries of [signal] add up to zero, and [peak_plus_bkg] and [bkg] have
    the same total. *)
Theorem signal_sums_to_zero
    (self : @PeakSearch R) (edges data : list R) ppb bk sg ns sn :
  (forall i, (i < length edges - 1)%nat ->
     nth i (sum_axis0 (length edges - 1) (clip_neg (kern_raw self edges))) 0 <> 0) ->
  convolve self edges data = Ok (ppb, bk, sg, ns, sn) ->
  Rsum sg = 0 /\ Rsum ppb = Rsum bk.
Proof.
  intros Hneg H. apply convolve_inv in H. destruct H as (kmat & Hk & _ & H).
  cbv zeta in H. injection H as -> -> -> _ _.
  set (n := (length edges - 1)%nat) in *.
  assert (Hsq : rows_of_length n kmat).
  { pose proof Hk as Hrows. apply kernel_matrix_rows in Hrows.
    exact (proj2 Hrows). }
  assert (Hzero : Rsum (map (fun row => dot_row row data) kmat) = 0).
  { rewrite (Rsum_dot_rows data Hsq).
    apply dot_row_zero_vector. rewrite (rows_total_length Hsq).
    intros i Hi. rewrite (rows_total_nth Hsq Hi).
    destruct (@kernel_matrix_col self edges kmat i Hk Hi) as (_ & HN & ->).
    apply rescaled_column_sum. rewrite <- HN. now apply Hneg. }
  split; [exact Hzero|].
  unfold clip_pos, clip_neg. rewrite !map_map.
  change (fun v : R => fmul (of_Z 1) (np_clip (Some zero) None v)) with pos_part.
  change (fun v : R => fmul (of_Z (-1)) (np_clip None (Some zero) v)) with neg_part.
  rewrite (map_ext _ _ (fun row => dot_row_split row data)) in Hzero.
  rewrite (Rsum_map_minus (fun row => dot_row (map pos_part row) data)
                          (fun row => dot_row (map neg_part row) data)) in Hzero.
  lra.
Qed.

Lemma signal_sums_to_zero_witness :
  exists ppb bk sg ns sn,
    convolve constant_width [0; 1; 2; 3] [1; 5; 2] = Ok (ppb, bk, sg, ns, sn) /\
    Rsum sg = 0 /\ Rsum ppb = Rsum bk.
Proof.
  destruct (convolve_returns constant_width [0; 1; 2; 3] [1; 5; 2] eq_refl)
    as [[[[[ppb bk] sg] ns] sn] H].
  exists ppb, bk, sg, ns, sn. split; [exact H|].
  apply (@signal_sums_to_zero constant_width [0; 1; 2; 3] [1; 5; 2] ppb bk sg ns sn);
    [|exact H].
  intros i Hi. apply KernelFacts.constant_width_negative_lobes. exact Hi.
Defined.

(** *** The decomposition *)

(** X21.  When every column of the kernel has a negative lobe (no column
    sum of [kern_neg] is zero), the arrays that [convolve] returns satisfy
    [signal = peak_plus_bkg - bkg] elementwise in exact arithmetic; and
    clipping the kernel matrix recovers the positive part of the raw kernel
    and its rescaled negative part. *)
Theorem convolve_signal_is_peak_minus_bkg
    (self : @PeakSearch R) (edges data : list R) ppb bk sg ns sn :
  (forall i, (i < length edges - 1)%nat ->
     nth i (sum_axis0 (length edges - 1) (clip_neg (kern_raw self edges))) 0 <> 0) ->
  convolve self edges data = Ok (ppb, bk, sg, ns, sn) ->
  sg = zip_with Rminus ppb bk /\
  exists kmat,
    kernel_matrix self edges = Ok kmat /\
    clip_pos kmat = clip_pos (kern_raw self edges) /\
    clip_neg kmat = rescale_neg (length edges - 1)
                      (clip_pos (kern_raw self edges))
                      (clip_neg (kern_raw self edges)).
Proof.
  intros _ H. apply convolve_inv in H. destruct H as (kmat & Hk & _ & H).
  cbv zeta in H. injection H as -> -> -> _ _.
  split.
  - unfold clip_pos, clip_neg. rewrite !map_map, zip_with_map_both.
    apply map_ext. intros row. apply dot_row_split.
  - exists kmat. split; [exact Hk|].
    apply kernel_matrix_eq in Hk.
    pose proof (kern_raw_rows self edges) as HK.
    set (n := (length edges - 1)%nat) in *. set (K := kern_raw self edges) in *.
    assert (HP : rows_of_length n (map (map pos_part) K)) by now apply rows_of_length_map.
    assert (HN : rows_of_length n (map (map neg_part) K)) by now apply rows_of_length_map.
    unfold rescale_neg, clip_pos, clip_neg in *.
    change (fun v : R => fmul (of_Z 1) (np_clip (Some zero) None v)) with pos_part in *.
    change (fun v : R => fmul (of_Z (-1)) (np_clip None (Some zero) v)) with neg_part in *.
    set (ratio := zip_with fdiv (sum_axis0 n (map (map pos_part) K))
                           (sum_axis0 n (map (map neg_part) K))) in *.
    assert (Hrl : length ratio = n).
    { unfold ratio. rewrite zip_with_length, !sum_axis0_length by assumption. lia. }
    assert (Hrn : Forall (fun s => 0 <= s) ratio).
    { unfold ratio. real_ops.
      apply (Forall_zip_with (P := fun v => 0 <= v) (Q := fun v => 0 <= v)).
      - intros a b. apply ratio_nonneg.
      - apply sum_axis0_nonneg. apply Forall_map, Forall_forall.
        intros row _. apply Forall_map, Forall_forall. intros v _. apply pos_part_nonneg.
      - apply sum_axis0_nonneg. apply Forall_map, Forall_forall.
        intros row _. apply Forall_map, Forall_forall. intros v _. apply neg_part_nonneg. }
    subst kmat. real_ops.
    rewrite (map_map (map neg_part) (fun row => zip_with Rmult row ratio)).
    rewrite zip_with_map_both, !map_map.
    unfold rows_of_length in HK. rewrite Forall_forall in HK.
    split; apply map_ext_in; intros row Hrow; specialize (HK _ Hrow);
      (destruct (@rescaled_row_parts row ratio) as [Hp Hn]; [lia|assumption|]);
      [exact Hp|exact Hn].
Qed.

Lemma convolve_signal_is_peak_minus_bkg_witness :
  exists ppb bk sg ns sn,
    convolve constant_width [0; 1; 2; 3] [1; 5; 2] = Ok (ppb, bk, sg, ns, sn) /\
    sg = zip_with Rminus ppb bk /\
    exists kmat,
      kernel_matrix constant_width [0; 1; 2; 3] = Ok kmat /\
      clip_pos kmat = clip_pos (kern_raw constant_width [0; 1; 2; 3]) /\
      clip_neg kmat = rescale_neg (length [0; 1; 2; 3] - 1)
                        (clip_pos (kern_raw constant_width [0; 1; 2; 3]))
                        (clip_neg (kern_raw constant_width [0; 1; 2; 3])).
Proof.
  destruct (convolve_returns constant_width [0; 1; 2; 3] [1; 5; 2] eq_refl)
    as [[[[[ppb bk] sg] ns] sn] H].
  exists ppb, bk, sg, ns, sn. split; [exact H|].
  apply (@convolve_signal_is_peak_minus_bkg constant_width [0; 1; 2; 3] [1; 5; 2]
           ppb bk sg ns sn);
    [|exact H].
  intros i Hi. apply KernelFacts.constant_width_negative_lobes. exact Hi.
Defined.
End Decomposition.

(** ** How the arrays of [convolve] depend on the counts, over R *)

Module Counts.
Import RR Totals ArrayFacts Exact KernelShape Decomposition.
Local Open Scope R_scope.
#[local] Existing Instance Rops.

Lemma dot_row_scale (c : R) (row data : list R) :
  dot_row row (map (Rmult c) data) = c * dot_row row data.
Proof.
  rewrite !dot_row_Rsum. unfold Rsum. revert data.
  induction row as [|k row IH]; intros [|d data]; cbn [map zip_with fold_right]; try lra.
  rewrite IH. lra.
Qed.

Lemma dot_row_add (row d1 d2 : list R) :
  length d1 = length d2 ->
  dot_row row (zip_with Rplus d1 d2) = dot_row row d1 + dot_row row d2.
Proof.
  rewrite !dot_row_Rsum. unfold Rsum. revert d1 d2.
  induction row as [|k row IH]; intros [|x d1] [|y d2] Hl;
    cbn [zip_with fold_right] in *; try lra; try discriminate.
  rewrite IH by (cbn in Hl; lia). lra.
Qed.

Lemma zip_with_maps {A B C D E : Type} (f : C -> D -> E) (g : A -> C) (h : B -> D)
    (a : list A) (b : list B) :
  zip_with f (map g a) (map h b) = zip_with (fun x y => f (g x) (h y)) a b.
Proof.
  revert b. induction a as [|x a IH]; intros [|y b]; cbn; auto. now rewrite IH.
Qed.

Lemma map_zip_with {A B C D : Type} (g : C -> D) (f : A -> B -> C)
    (a : list A) (b : list B) :
  map g (zip_with f a b) = zip_with (fun x y => g (f x y)) a b.
Proof.
  revert b. induction a as [|x a IH]; intros [|y b]; cbn; auto. now rewrite IH.
Qed.

Lemma zip_with_pointwise {A B C : Type} (f g : A -> B -> C) (a : list A) (b : list B) :
  (forall x y, f x y = g x y) -> zip_with f a b = zip_with g a b.
Proof.
  intros H. revert b. induction a as [|x a IH]; intros [|y b]; cbn; auto.
  now rewrite H, IH.
Qed.

(** The SNR of one channel, from its signal and its noise. *)
Lemma snr_entry_scale (c s n : R) :
  0 < c ->
  (if Rltb 0 (sqrt c * n) then c * s / (sqrt c * n) else 0)
  = sqrt c * (if Rltb 0 n then s / n else 0).
Proof.
  intros Hc. assert (Hs : 0 < sqrt c) by now apply sqrt_lt_R0.
  unfold Rltb. destruct (Rlt_dec 0 n) as [Hn|Hn].
  - destruct (Rlt_dec 0 (sqrt c * n)) as [_|Hn']; [|exfalso; apply Hn'; nra].
    rewrite <- (sqrt_sqrt c) at 1 by lra. field. lra.
  - destruct (Rlt_dec 0 (sqrt c * n)) as [Hn'|_]; [exfalso; apply Hn; nra|]. lra.
Qed.

(** X14.  When every column of the kernel has a negative lobe (no column
    sum of [kern_neg] is zero), multiplying all counts by [c > 0] multiplies
    [peak_plus_bkg], [bkg] and [signal] by [c], and [noise] and [snr] by
    [sqrt(c)]. *)
Theorem convolve_scales_with_counts
    (self : @PeakSearch R) (edges data : list R) (c : R) ppb bk sg ns sn :
  (forall i, (i < length edges - 1)%nat ->
     nth i (sum_axis0 (length edges - 1) (clip_neg (kern_raw self edges))) 0 <> 0) ->
  0 < c ->
  convolve self edges data = Ok (ppb, bk, sg, ns, sn) ->
  convolve self edges (map (Rmult c) data)
  = Ok (map (Rmult c) ppb, map (Rmult c) bk, map (Rmult c) sg,
        map (Rmult (sqrt c)) ns, map (Rmult (sqrt c)) sn).
Proof.
  intros _ Hc H. apply convolve_inv in H. destruct H as (kmat & Hk & Hl & H).
  cbv zeta in H. injection H as -> -> -> -> ->.
  unfold convolve. rewrite Hk. cbn [bind]. unfold np_dot.
  rewrite length_map. rewrite Hl, Nat.eqb_refl. cbn [bind].
  assert (Hdot : forall m : list (list R),
             map (fun row => dot_row row (map (Rmult c) data)) m
             = map (Rmult c) (map (fun row => dot_row row data) m)).
  { intros m. rewrite map_map. apply map_ext. intros row. apply dot_row_scale. }
  rewrite !Hdot. do 2 f_equal; [f_equal|].
  - real_ops. rewrite !map_map. apply map_ext. intros row.
    apply sqrt_mult_alt. lra.
  - unfold snr_of, zero. real_ops.
    rewrite (map_map (Rmult c) sqrt).
    rewrite (map_ext (fun x => sqrt (c * x)) (fun x => sqrt c * sqrt x))
      by (intros x; apply sqrt_mult_alt; lra).
    rewrite <- (map_map sqrt (Rmult (sqrt c))).
    rewrite zip_with_maps, map_zip_with.
    apply zip_with_pointwise. intros s n. now apply snr_entry_scale.
Qed.

Lemma convolve_scales_with_counts_witness :
  exists ppb bk sg ns sn,
    convolve constant_width [0; 1; 2; 3] [1; 5; 2] = Ok (ppb, bk, sg, ns, sn) /\
    convolve constant_width [0; 1; 2; 3] (map (Rmult 4) [1; 5; 2])
    = Ok (map (Rmult 4) ppb, map (Rmult 4) bk, map (Rmult 4) sg,
          map (Rmult (sqrt 4)) ns, map (Rmult (sqrt 4)) sn).
Proof.
  destruct (convolve_returns constant_width [0; 1; 2; 3] [1; 5; 2] eq_refl)
    as [[[[[ppb bk] sg] ns] sn] H].
  exists ppb, bk, sg, ns, sn. split; [exact H|].
  apply (@convolve_scales_with_counts constant_width [0; 1; 2; 3] [1; 5; 2] 4
           ppb bk sg ns sn);
    [|lra|exact H].
  intros i Hi. apply KernelFacts.constant_width_negative_lobes. exact Hi.
Defined.

(** X15.  When every column of the kernel has a negative lobe (no column
    sum of [kern_neg] is zero), [peak_plus_bkg], [bkg] and [signal] are
    additive in the counts: for two count arrays on which [convolve]
    returns, the arrays of the summed counts are the sums of the arrays. *)
Theorem convolve_additive_in_counts
    (self : @PeakSearch R) (edges d1 d2 : list R)
    ppb1 bk1 sg1 ns1 sn1 ppb2 bk2 sg2 ns2 sn2 :
  (forall i, (i < length edges - 1)%nat ->
     nth i (sum_axis0 (length edges - 1) (clip_neg (kern_raw self edges))) 0 <> 0) ->
  convolve self edges d1 = Ok (ppb1, bk1, sg1, ns1, sn1) ->
  convolve self edges d2 = Ok (ppb2, bk2, sg2, ns2, sn2) ->
  exists ns sn,
    convolve self edges (zip_with Rplus d1 d2)
    = Ok (zip_with Rplus ppb1 ppb2, zip_with Rplus bk1 bk2, zip_with Rplus sg1 sg2,
          ns, sn).
Proof.
  intros _ H1 H2.
  apply convolve_inv in H1. destruct H1 as (kmat & Hk & Hl1 & H1).
  apply convolve_inv in H2. destruct H2 as (kmat' & Hk' & Hl2 & H2).
  rewrite Hk in Hk'. injection Hk' as <-.
  cbv zeta in H1, H2. injection H1 as -> -> -> _ _. injection H2 as -> -> -> _ _.
  unfold convolve. rewrite Hk. cbn [bind]. unfold np_dot.
  rewrite zip_with_length, <- Hl1, <- Hl2, Nat.min_id, Nat.eqb_refl. cbn [bind].
  assert (Hdot : forall m : list (list R),
             map (fun row => dot_row row (zip_with Rplus d1 d2)) m
             = zip_with Rplus (map (fun row => dot_row row d1) m)
                              (map (fun row => dot_row row d2) m)).
  { intros m. rewrite zip_with_map_both. apply map_ext. intros row.
    apply dot_row_add. lia. }
  rewrite !Hdot. eauto.
Qed.

Lemma convolve_additive_in_counts_witness :
  exists ppb1 bk1 sg1 ns1 sn1 ppb2 bk2 sg2 ns2 sn2,
    convolve constant_width [0; 1; 2; 3] [1; 5; 2] = Ok (ppb1, bk1, sg1, ns1, sn1) /\
    convolve constant_width [0; 1; 2; 3] [2; 0; 1] = Ok (ppb2, bk2, sg2, ns2, sn2) /\
    exists ns sn,
      convolve constant_width [0; 1; 2; 3] (zip_with Rplus [1; 5; 2] [2; 0; 1])
      = Ok (zip_with Rplus ppb1 ppb2, zip_with Rplus bk1 bk2, zip_with Rplus sg1 sg2,
            ns, sn).
Proof.
  destruct (convolve_returns constant_width [0; 1; 2; 3] [1; 5; 2] eq_refl)
    as [[[[[ppb1 bk1] sg1] ns1] sn1] H1].
  destruct (convolve_returns constant_width [0; 1; 2; 3] [2; 0; 1] eq_refl)
    as [[[[[ppb2 bk2] sg2] ns2] sn2] H2].
  exists ppb1, bk1, sg1, ns1, sn1, ppb2, bk2, sg2, ns2, sn2.
  split; [exact H1|]. split; [exact H2|].
  apply (@convolve_additive_in_counts constant_width [0; 1; 2; 3] [1; 5; 2] [2; 0; 1]
           ppb1 bk1 sg1 ns1 sn1 ppb2 bk2 sg2 ns2 sn2);
    [|exact H1|exact H2].
  intros i Hi. apply KernelFacts.constant_width_negative_lobes. exact Hi.
Defined.

(** *** A bound on the SNR *)

Lemma weighted_squares_nonneg (row data : list R) :
  Forall (fun d => 0 <= d) data ->
  0 <= Rsum (zip_with Rmult (map (fun v => v * v) row) data).
Proof.
  intros Hd. apply Rsum_nonneg.
  apply (Forall_zip_with (P := fun v => 0 <= v) (Q := fun v => 0 <= v)).
  - intros a b. apply Rmult_le_pos.
  - apply Forall_map, Forall_forall. intros v _. nra.
  - exact Hd.
Qed.

(** The Cauchy-Schwarz inequality with the counts as weights. *)
Lemma weighted_cauchy_schwarz (row data : list R) :
  Forall (fun d => 0 <= d) data ->
  Rsum (zip_with Rmult row data) * Rsum (zip_with Rmult row data)
  <= Rsum (zip_with Rmult (map (fun v => v * v) row) data) * Rsum data.
Proof.
  intros Hd. revert row. induction Hd as [|d data Hd0 Hd IH]; intros row.
  - destruct row; unfold Rsum; cbn; lra.
  - destruct row as [|k row].
    + unfold Rsum. cbn. lra.
    + specialize (IH row).
      pose proof (weighted_squares_nonneg row Hd) as HQ.
      pose proof (Rsum_nonneg Hd) as HD.
      unfold Rsum in *. cbn [map zip_with fold_right].
      set (A := fold_right Rplus 0 (zip_with Rmult row data)) in *.
      set (Q := fold_right Rplus 0 (zip_with Rmult (map (fun v => v * v) row) data)) in *.
      set (D := fold_right Rplus 0 data) in *.
      destruct (Rle_lt_or_eq_dec _ _ HD) as [HDpos|HD0].
      * assert (Hmid : 0 <= k * k * D + Q - 2 * k * A).
        { assert (H1 : D * (k * k * D + Q - 2 * k * A)
                       = (k * D - A) * (k * D - A) + (Q * D - A * A)) by ring.
          assert (H2 : 0 <= D * (k * k * D + Q - 2 * k * A)).
          { rewrite H1. pose proof (Rle_0_sqr (k * D - A)) as Hsq.
            unfold Rsqr in Hsq. lra. }
          apply (Rmult_le_reg_l D); [exact HDpos|]. lra. }
        assert (Hexp : (k * d + A) * (k * d + A)
                       = A * A + d * (2 * k * A) + k * k * d * d) by ring.
        assert (Hexp2 : (k * k * d + Q) * (d + D)
                        = Q * D + d * (k * k * D + Q) + k * k * d * d) by ring.
        rewrite Hexp, Hexp2.
        assert (Hprod : 0 <= d * (k * k * D + Q - 2 * k * A))
          by (apply Rmult_le_pos; assumption).
        lra.
      * rewrite <- HD0 in *.
        assert (HA : A = 0).
        { assert (HAA : A * A <= 0) by lra.
          pose proof (Rle_0_sqr A) as Hsq. unfold Rsqr in Hsq.
          destruct (Req_dec A 0) as [E|E]; [exact E|].
          pose proof (Rsqr_pos_lt A E) as Hp. unfold Rsqr in Hp. lra. }
        rewrite HA.
        assert (Hexp : (k * d + 0) * (k * d + 0) = d * (k * k * d)) by ring.
        assert (Hexp2 : (k * k * d + Q) * (d + 0) = d * (k * k * d) + d * Q) by ring.
        rewrite Hexp, Hexp2.
        pose proof (Rmult_le_pos _ _ Hd0 HQ). lra.
Qed.

(** X16.  When every column of the kernel has a negative lobe (no column
    sum of [kern_neg] is zero) and no count is negative, the square of every
    [snr] that [convolve] returns is at most the sum of all counts. *)
Theorem snr_bounded_by_total_counts
    (self : @PeakSearch R) (edges data : list R) ppb bk sg ns sn (i : nat) :
  (forall k, (k < length edges - 1)%nat ->
     nth k (sum_axis0 (length edges - 1) (clip_neg (kern_raw self edges))) 0 <> 0) ->
  Forall (fun d => 0 <= d) data ->
  convolve self edges data = Ok (ppb, bk, sg, ns, sn) ->
  nth i sn 0 * nth i sn 0 <= Rsum data.
Proof.
  intros _ Hd H. pose proof (Rsum_nonneg Hd) as HD.
  apply convolve_inv in H. destruct H as (kmat & _ & _ & H).
  cbv zeta in H. injection H as _ _ -> -> ->.
  unfold snr_of, zero. real_ops. rewrite !map_map, zip_with_map_both.
  destruct (Nat.lt_ge_cases i (length kmat)) as [Hi|Hi].
  2:{ rewrite nth_overflow by (rewrite length_map; lia). lra. }
  rewrite (nth_indep _ 0
             ((fun row => if Rltb 0 (sqrt (dot_row (map (fun v => v * v) row) data))
                          then dot_row row data
                               / sqrt (dot_row (map (fun v => v * v) row) data)
                          else 0) []))
    by (rewrite length_map; lia).
  rewrite (map_nth (fun row => if Rltb 0 (sqrt (dot_row (map (fun v => v * v) row) data))
                               then dot_row row data
                                    / sqrt (dot_row (map (fun v => v * v) row) data)
                               else 0)).
  set (row := nth i kmat []).
  rewrite !dot_row_Rsum.
  pose proof (weighted_cauchy_schwarz row Hd) as HCS.
  pose proof (weighted_squares_nonneg row Hd) as HQ.
  set (A := Rsum (zip_with Rmult row data)) in *.
  set (Q := Rsum (zip_with Rmult (map (fun v => v * v) row) data)) in *.
  unfold Rltb. destruct (Rlt_dec 0 (sqrt Q)) as [Hq|Hq]; [|lra].
  assert (HQpos : 0 < Q).
  { destruct HQ as [HQ|HQ]; [exact HQ|]. rewrite <- HQ, sqrt_0 in Hq. lra. }
  replace (A / sqrt Q * (A / sqrt Q)) with (A * A / (sqrt Q * sqrt Q))
    by (field; lra).
  rewrite sqrt_sqrt by lra.
  apply (Rmult_le_reg_r Q); [exact HQpos|].
  replace (A * A / Q * Q) with (A * A) by (field; lra). lra.
Qed.

Lemma snr_bounded_by_total_counts_witness :
  exists ppb bk sg ns sn,
    convolve constant_width [0; 1; 2; 3] [1; 5; 2] = Ok (ppb, bk, sg, ns, sn) /\
    nth 1 sn 0 * nth 1 sn 0 <= Rsum [1; 5; 2].
Proof.
  destruct (convolve_returns constant_width [0; 1; 2; 3] [1; 5; 2] eq_refl)
    as [[[[[ppb bk] sg] ns] sn] H].
  exists ppb, bk, sg, ns, sn. split; [exact H|].
  apply (@snr_bounded_by_total_counts constant_width [0; 1; 2; 3] [1; 5; 2]
           ppb bk sg ns sn 1);
    [|repeat constructor; lra|exact H].
  intros i Hi. apply KernelFacts.constant_width_negative_lobes. exact Hi.
Defined.
End Counts.

(** ** Noise and zero counts on binary64 *)

Module Float64.
Import B64 Finite B64Facts ArrayFacts.
Local Open Scope float_scope.

(** A square root is never negative (it is NaN for a negative argument). *)
Lemma sqrt_notneg (x : float) : notneg (PrimFloat.sqrt x).
Proof.
  apply notneg_spec. rewrite sqrt_spec. unfold SF64sqrt, SFsqrt.
  destruct (Prim2SF x) as [s|s| |s m e]; auto.
  - destruct s; auto.
  - destruct s; auto.
    destruct (SFsqrt_core_binary prec emax (Z.pos m) e) as [[mz ez] lz].
    destruct (binary_round_aux_cases false mz ez lz)
      as [H | [(m' & e' & H) | [H | H]]]; cbv zeta in H; rewrite H; auto.
Qed.

(** X17.  No entry of the [noise] that [convolve] returns is below zero,
    whatever the kernel and the counts are (a negative variance gives NaN). *)
Theorem convolve_noise_never_negative
    (exp : float -> float) (self : @PeakSearch float) (edges data : list float)
    ppb bk sg ns sn :
  @convolve _ (F64 exp) self edges data = Ok (ppb, bk, sg, ns, sn) ->
  forall v, In v ns -> (v <? 0) = false.
Proof.
  intros H v Hv. apply convolve_inv in H. destruct H as (kmat & _ & _ & H).
  cbv zeta in H. injection H as _ _ _ -> _.
  apply in_map_iff in Hv. destruct Hv as (q & <- & _).
  apply sqrt_notneg.
Qed.

Lemma convolve_noise_never_negative_witness :
  exists ppb bk sg ns sn,
    @convolve _ (F64 exp_run) (fresh (Spectrum [0; 0; 4; 0] [0; 1; 2; 3]) 50 5 1 2)
              [0; 1; 2; 3; 4] [0; 0; 4; 0] = Ok (ppb, bk, sg, ns, sn) /\
    forall v, In v ns -> (v <? 0) = false.
Proof.
  destruct (@convolve_returns _ (F64 exp_run)
              (fresh (Spectrum [0; 0; 4; 0] [0; 1; 2; 3]) 50 5 1 2)
              [0; 1; 2; 3; 4] [0; 0; 4; 0] eq_refl) as [[[[[ppb bk] sg] ns] sn] H].
  exists ppb, bk, sg, ns, sn. split; [exact H|].
  exact (@convolve_noise_never_negative exp_run _ _ _ ppb bk sg ns sn H).
Defined.

(** *** Zero counts *)

Lemma eqb_zero_spec (x : float) : (x =? 0) = true <-> is_zero x.
Proof.
  rewrite eqb_spec. change (Prim2SF 0) with (S754_zero false). unfold is_zero.
  destruct (Prim2SF x) as [s|s| |s m e]; cbn; split; intros H; eauto;
    try discriminate; try (destruct H; discriminate);
    destruct s; discriminate.
Qed.

Lemma finite_times_zero (k d : float) : finiteb k = true -> is_zero d -> is_zero (k * d).
Proof.
  unfold finiteb, PrimFloat.is_nan, PrimFloat.is_infinity, is_zero.
  rewrite !eqb_spec, abs_spec. change (Prim2SF infinity) with (S754_infinity false).
  intros Hk [s Hd]. rewrite mul_spec, Hd. unfold SF64mul.
  destruct (Prim2SF k) as [sk|sk| |sk m e]; cbn in *; eauto; try discriminate.
  destruct sk; discriminate.
Qed.

Lemma zero_plus_zero (a b : float) : is_zero a -> is_zero b -> is_zero (a + b).
Proof.
  unfold is_zero. intros [sa Ha] [sb Hb]. rewrite add_spec, Ha, Hb.
  destruct sa, sb; cbn; eauto.
Qed.

Lemma dot_row_zero_counts (exp : float -> float) (row data : list float) :
  forallb finiteb row = true -> Forall is_zero data ->
  is_zero (@dot_row _ (F64 exp) row data).
Proof.
  unfold dot_row. cbn [fadd fmul zero of_Z F64 float_of_Z].
  assert (H0 : is_zero 0) by (exists false; reflexivity).
  revert H0. generalize 0 at 1 2. intros acc Hacc Hrow Hdata. revert acc Hacc row Hrow.
  induction Hdata as [|d data Hd Hdata IH]; intros acc Hacc [|k row] Hrow;
    cbn [zip_with fold_left]; auto.
  cbn [forallb] in Hrow. apply andb_prop in Hrow. destruct Hrow as [Hk Hrow].
  apply IH; [|exact Hrow].
  apply zero_plus_zero; [exact Hacc|]. now apply finite_times_zero.
Qed.

Lemma sqrt_zero (x : float) : is_zero x -> is_zero (PrimFloat.sqrt x).
Proof.
  unfold is_zero. intros [s H]. rewrite sqrt_spec, H. cbn. eauto.
Qed.

Lemma snr_of_zero_noise (exp : float -> float) (sg ns : list float) :
  Forall is_zero ns -> Forall (fun v => v = 0) (@snr_of _ (F64 exp) sg ns).
Proof.
  intros Hns. revert sg. unfold snr_of.
  induction Hns as [|n ns Hn Hns IH]; intros [|s sg]; cbn [zip_with];
    try (constructor; fail).
  constructor; [|apply IH].
  cbn [fltb F64 zero of_Z float_of_Z].
  apply eqb_zero_spec in Hn. now rewrite (Snr.eqb_zero_not_pos Hn).
Qed.

(** X18.  When the kernel matrix, its two clipped parts and its square hold
    finite numbers only, [convolve] on counts that are all zero returns
    zeros in [peak_plus_bkg], [bkg], [signal] and [noise], and [snr] is 0
    throughout. *)
Theorem convolve_zero_counts_finite_kernel
    (exp : float -> float) (self : @PeakSearch float) (edges data : list float)
    kmat ppb bk sg ns sn :
  @kernel_matrix _ (F64 exp) self edges = Ok kmat ->
  forallb (forallb finiteb) kmat = true ->
  forallb (forallb finiteb) (@clip_pos _ (F64 exp) kmat) = true ->
  forallb (forallb finiteb) (@clip_neg _ (F64 exp) kmat) = true ->
  forallb (forallb finiteb) (map (map (fun v => v * v)) kmat) = true ->
  Forall (fun d => (d =? 0) = true) data ->
  @convolve _ (F64 exp) self edges data = Ok (ppb, bk, sg, ns, sn) ->
  Forall (fun v => (v =? 0) = true) ppb /\ Forall (fun v => (v =? 0) = true) bk /\
  Forall (fun v => (v =? 0) = true) sg /\ Forall (fun v => (v =? 0) = true) ns /\
  Forall (fun v => v = 0) sn.
Proof.
  intros Hk Hf Hfp Hfn Hfs Hd H.
  assert (Hd' : Forall is_zero data).
  { eapply Forall_impl; [|exact Hd]. intros d. apply eqb_zero_spec. }
  apply convolve_inv in H. destruct H as (kmat' & Hk' & _ & H).
  rewrite Hk in Hk'. injection Hk' as <-.
  cbv zeta in H. injection H as -> -> -> -> ->.
  assert (Hdot : forall m, forallb (forallb finiteb) m = true ->
            Forall is_zero (map (fun row => @dot_row _ (F64 exp) row data) m)).
  { intros m Hm. apply Forall_map, Forall_forall. intros row Hrow.
    apply dot_row_zero_counts; [|exact Hd'].
    rewrite forallb_forall in Hm. now apply Hm. }
  assert (Hz : forall l, Forall is_zero l -> Forall (fun v => (v =? 0) = true) l).
  { intros l Hl. eapply Forall_impl; [|exact Hl]. intros v. apply eqb_zero_spec. }
  assert (Hns : Forall is_zero
            (map (@fsqrt _ (F64 exp))
                 (map (fun row => @dot_row _ (F64 exp) row data)
                      (map (map (fun v => @fmul _ (F64 exp) v v)) kmat)))).
  { apply Forall_map. eapply Forall_impl; [|exact (Hdot _ Hfs)].
    intros v. apply sqrt_zero. }
  repeat split; auto.
  now apply snr_of_zero_noise.
Qed.

Lemma convolve_zero_counts_finite_kernel_witness :
  exists kmat ppb bk sg ns sn,
    @convolve _ (F64 exp_run) (fresh (Spectrum [0; 0; 0; 0] [0; 1; 2; 3]) 50 5 1 2)
              [0; 1; 2; 3; 4] [0; 0; 0; 0] = Ok (ppb, bk, sg, ns, sn) /\
    @kernel_matrix _ (F64 exp_run) (fresh (Spectrum [0; 0; 0; 0] [0; 1; 2; 3]) 50 5 1 2)
                   [0; 1; 2; 3; 4] = Ok kmat /\
    Forall (fun v => (v =? 0) = true) ppb /\ Forall (fun v => (v =? 0) = true) bk /\
    Forall (fun v => (v =? 0) = true) sg /\ Forall (fun v => (v =? 0) = true) ns /\
    Forall (fun v => v = 0) sn.
Proof.
  destruct (@convolve_returns _ (F64 exp_run)
              (fresh (Spectrum [0; 0; 0; 0] [0; 1; 2; 3]) 50 5 1 2)
              [0; 1; 2; 3; 4] [0; 0; 0; 0] eq_refl) as [[[[[ppb bk] sg] ns] sn] H].
  destruct (@kernel_matrix_returns _ (F64 exp_run)
              (fresh (Spectrum [0; 0; 0; 0] [0; 1; 2; 3]) 50 5 1 2) 0 [1; 2; 3; 4])
    as [kmat Hk].
  exists kmat, ppb, bk, sg, ns, sn. split; [exact H|]. split; [exact Hk|].
  apply (@convolve_zero_counts_finite_kernel exp_run
           (fresh (Spectrum [0; 0; 0; 0] [0; 1; 2; 3]) 50 5 1 2)
           [0; 1; 2; 3; 4] [0; 0; 0; 0] kmat ppb bk sg ns sn Hk).
  - vm_compute in Hk. injection Hk as <-. vm_compute. reflexivity.
  - vm_compute in Hk. injection Hk as <-. vm_compute. reflexivity.
  - vm_compute in Hk. injection Hk as <-. vm_compute. reflexivity.
  - vm_compute in Hk. injection Hk as <-. vm_compute. reflexivity.
  - repeat constructor.
  - exact H.
Defined.
End Float64.

(** ** The colour scale of [plot_kernel], over R *)

Module PlotKernelFacts.
Import RR Totals ArrayFacts Exact KernelShape.
Local Open Scope R_scope.
#[local] Existing Instance Rops.

Lemma np_minimum_eq (a b : R) : np_minimum a b = Rmin a b.
Proof.
  unfold np_minimum. real_ops. unfold Rleb, Rmin.
  destruct (Rle_dec a b); reflexivity.
Qed.

Lemma np_maximum_eq (a b : R) : np_maximum a b = Rmax a b.
Proof.
  unfold np_maximum. real_ops. unfold Rleb, Rmax.
  destruct (Rle_dec b a), (Rle_dec a b); cbn; lra.
Qed.

Lemma fold_min_bound (vs : list R) (v : R) :
  fold_left np_minimum vs v <= v /\
  forall w, In w vs -> fold_left np_minimum vs v <= w.
Proof.
  revert v. induction vs as [|x vs IH]; intros v; cbn [fold_left].
  - split; [lra|intros w []].
  - rewrite np_minimum_eq. destruct (IH (Rmin v x)) as [H1 H2].
    pose proof (Rmin_l v x). pose proof (Rmin_r v x).
    split; [lra|]. intros w [<-|Hw]; [lra|now apply H2].
Qed.

Lemma fold_max_bound (vs : list R) (v : R) :
  v <= fold_left np_maximum vs v /\
  forall w, In w vs -> w <= fold_left np_maximum vs v.
Proof.
  revert v. induction vs as [|x vs IH]; intros v; cbn [fold_left].
  - split; [lra|intros w []].
  - rewrite np_maximum_eq. destruct (IH (Rmax v x)) as [H1 H2].
    pose proof (Rmax_l v x). pose proof (Rmax_r v x).
    split; [lra|]. intros w [<-|Hw]; [lra|now apply H2].
Qed.

Lemma np_min_max_bounds (m : list (list R)) (lo hi : R) :
  np_min m = Ok lo -> np_max m = Ok hi ->
  forall row v, In row m -> In v row -> lo <= v <= hi.
Proof.
  unfold np_min, np_max. intros Hlo Hhi row v Hrow Hv.
  assert (Hin : In v (concat m)) by (apply in_concat; eauto).
  destruct (concat m) as [|x xs]; [discriminate|].
  injection Hlo as <-. injection Hhi as <-.
  destruct (fold_min_bound xs x) as [A1 A2]. destruct (fold_max_bound xs x) as [B1 B2].
  destruct Hin as [<-|Hin]; [lra|]. split; [now apply A2|now apply B2].
Qed.

(** The two lines that make the colour scale symmetric. *)
Lemma symmetric_limits (lo hi : R) :
  let lo' := py_min lo (fmul (of_Z (-1)) hi) in
  let hi' := py_max hi (fmul (of_Z (-1)) lo') in
  lo' = - hi' /\ lo' <= lo /\ hi <= hi'.
Proof.
  cbv zeta. unfold py_min, py_max. real_ops. unfold Rltb.
  destruct (Rlt_dec (-1 * hi) lo) as [H1|H1].
  - destruct (Rlt_dec hi (-1 * (-1 * hi))) as [H2|H2]; lra.
  - destruct (Rlt_dec hi (-1 * lo)) as [H2|H2]; lra.
Qed.

Lemma transpose_entries (c : nat) (m : list (list R)) (row : list R) (v : R) :
  rows_of_length c m -> In row (transpose c m) -> In v row ->
  exists row', In row' m /\ In v row'.
Proof.
  unfold transpose, rows_of_length. intros Hm Hrow Hv.
  apply in_map_iff in Hrow. destruct Hrow as (i & <- & Hi).
  apply in_seq in Hi. apply in_map_iff in Hv. destruct Hv as (row' & <- & Hrow').
  exists row'. split; [exact Hrow'|].
  rewrite Forall_forall in Hm. apply nth_In. rewrite (Hm _ Hrow'). lia.
Qed.

(** X19.  [plot_kernel] raises IndexError on a spectrum without channels.
    On a spectrum with channels whose kernel has a negative lobe in every
    column (no column sum of [kern_neg] is zero, for the edges that
    [plot_kernel] builds) it draws: the image has one row and one column per
    channel, its colour scale is symmetric about zero ([vmin = -vmax]), and
    every entry of the image lies within the scale. *)
Theorem plot_kernel_symmetric_scale (self : @PeakSearch R) :
  let edges := channels (spectrum self)
               ++ [fadd (last (channels (spectrum self)) zero) (of_Z 1)] in
  (channels (spectrum self) = [] -> plot_kernel self = Raise IndexError) /\
  (channels (spectrum self) <> [] ->
   (forall i, (i < length edges - 1)%nat ->
      nth i (sum_axis0 (length edges - 1) (clip_neg (kern_raw self edges))) 0 <> 0) ->
   exists call, plot_kernel self = Ok call /\
     length (image call) = length (channels (spectrum self)) /\
     Forall (fun row => length row = length (channels (spectrum self))) (image call) /\
     vmin call = - vmax call /\
     forall row v, In row (image call) -> In v row -> vmin call <= v <= vmax call).
Proof.
  cbv zeta. unfold plot_kernel. split.
  - intros ->. reflexivity.
  - intros Hne _. destruct (channels (spectrum self)) as [|c cs] eqn:Hch; [contradiction|].
    cbn [bind].
    set (edges := (c :: cs) ++ [fadd (last (c :: cs) zero) (of_Z 1)]).
    assert (Hn : (length edges - 1)%nat = length (c :: cs))
      by (unfold edges; rewrite length_app; cbn; lia).
    destruct (kernel_matrix_returns self c (cs ++ [fadd (last (c :: cs) zero) (of_Z 1)]))
      as [kmat Hk].
    change (c :: cs ++ [fadd (last (c :: cs) zero) (of_Z 1)]) with edges in Hk.
    rewrite Hk. cbn [bind].
    pose proof Hk as Hsq. apply kernel_matrix_rows in Hsq. destruct Hsq as [Hl Hrows].
    rewrite Hn in Hl, Hrows.
    (* the matrix has an entry *)
    destruct kmat as [|r0 kmat]; [cbn in Hl; discriminate|].
    assert (Hr0 : length r0 = length (c :: cs)) by now inversion Hrows.
    destruct r0 as [|v0 r0]; [cbn in Hr0; discriminate|].
    unfold np_min, np_max. cbn [concat app bind].
    set (M := (v0 :: r0) :: kmat) in *.
    set (lo := fold_left np_minimum (r0 ++ concat kmat) v0).
    set (hi := fold_left np_maximum (r0 ++ concat kmat) v0).
    assert (Hlo : np_min M = Ok lo) by reflexivity.
    assert (Hhi : np_max M = Ok hi) by reflexivity.
    pose proof (np_min_max_bounds M Hlo Hhi) as Hb.
    destruct (symmetric_limits lo hi) as (Hsym & Hlo' & Hhi'). cbv zeta in Hsym, Hlo', Hhi'.
    eexists. split; [reflexivity|]. cbn [image vmin vmax]. rewrite Hn.
    split; [|split; [|split]].
    + rewrite length_rev. unfold transpose. now rewrite length_map, length_seq.
    + apply Forall_forall. intros row Hrow. apply in_rev in Hrow.
      unfold transpose in Hrow. apply in_map_iff in Hrow. destruct Hrow as (i & <- & _).
      now rewrite length_map.
    + exact Hsym.
    + intros row v Hrow Hv. apply in_rev in Hrow.
      destruct (@transpose_entries _ M row v Hrows Hrow Hv) as (row' & Hr' & Hv').
      specialize (Hb row' v Hr' Hv'). lra.
Qed.

Lemma plot_kernel_symmetric_scale_witness :
  exists call, plot_kernel constant_width = Ok call /\
    length (image call) = length (channels (spectrum constant_width)) /\
    Forall (fun row => length row = length (channels (spectrum constant_width)))
           (image call) /\
    vmin call = - vmax call /\
    forall row v, In row (image call) -> In v row -> vmin call <= v <= vmax call.
Proof.
  apply (proj2 (@plot_kernel_symmetric_scale constant_width)).
  - discriminate.
  - intros i Hi.
    cbn [constant_width fresh Spectrum spectrum channels app last length Nat.sub] in *.
    unfold zero. real_ops. replace (2 + 1) with 3 by lra.
    apply KernelFacts.constant_width_negative_lobes. exact Hi.
Defined.
End PlotKernelFacts.
